(** * Root-cause ranking: the Kolmogorov-Smirnov ranking of [kstest.py]
      and the stub of [hollow_rca.py]

    The Python functions are embedded as Rocq functions.  Numbers of the
    input tables are exact rationals ([Q]); the results of the
    percentage-change division, which pandas computes with IEEE semantics
    (x/0 is an infinity or NaN, never an exception), live in [xfloat].
    Printing and exceptions are threaded through the monad [M]. *)

From Stdlib Require Import List String Ascii Bool Arith ZArith QArith Qminmax Lia.
From Stdlib Require Import Sorting.Sorted Sorting.Permutation.
From Stdlib Require Import Lqa.
Import ListNotations.
Open Scope string_scope.
Open Scope list_scope.

(** ** Effects: standard output and exceptions *)

Inductive exn : Type :=
| ValueError
| IndexError
| KeyError.

(** A computation yields the lines it printed and either the exception it
    raised or its value. *)
Definition M (A : Type) : Type := (list string * (exn + A))%type.

Definition ret {A} (a : A) : M A := ([], inr a).
Definition raise {A} (e : exn) : M A := ([], inl e).
Definition print (s : string) : M unit := ([s], inr tt).

Definition bind {A B} (m : M A) (f : A -> M B) : M B :=
  match m with
  | (out, inl e) => (out, inl e)
  | (out, inr a) => let (out', r) := f a in (out ++ out', r)
  end.

Notation "x <- m ;; k" := (bind m (fun x => k))
  (at level 61, m at next level, right associativity).
Notation "m ;;; k" := (bind m (fun _ => k))
  (at level 61, right associativity).

Definition stdout {A} (m : M A) : list string := fst m.
Definition outcome {A} (m : M A) : exn + A := snd m.

(** ** Numbers with the IEEE special values *)

Inductive xfloat : Type :=
| Num (q : Q)
| PInf
| NInf
| NaN.

(** Float division of two finite numbers: no exception on a zero divisor. *)
Definition xdiv (a b : Q) : xfloat :=
  if Qeq_bool b 0 then
    (if Qeq_bool a 0 then NaN
     else if Qle_bool 0 a then PInf else NInf)
  else Num (a / b).

(** Multiplication by a positive finite constant. *)
Definition xscale (x : xfloat) (k : Q) : xfloat :=
  match x with
  | Num q => Num (q * k)
  | other => other
  end.

Definition is_nan (x : xfloat) : bool :=
  match x with NaN => true | _ => false end.

(** [xge a b]: [a] is placed no later than [b] by a descending sort that
    puts missing values last (pandas' [na_position='last']). *)
Definition xge (a b : xfloat) : bool :=
  match a, b with
  | _, NaN => true
  | NaN, _ => false
  | PInf, _ => true
  | _, PInf => false
  | _, NInf => true
  | NInf, _ => false
  | Num p, Num q => Qle_bool q p
  end.

(** IEEE comparison [a >= b]: false as soon as one side is NaN. *)
Definition ieee_ge (a b : xfloat) : Prop :=
  match a, b with
  | NaN, _ | _, NaN => False
  | PInf, _ => True
  | _, PInf => False
  | _, NInf => True
  | NInf, _ => False
  | Num p, Num q => (q <= p)%Q
  end.

(** ** Stable descending sort

    [sorted(..., reverse=True)] and the descending [sort_values] keep
    elements that compare equal in their original order. *)

Section StableSort.
Context {A : Type} (ge : A -> A -> bool).

Fixpoint insert_desc (x : A) (l : list A) : list A :=
  match l with
  | [] => [x]
  | y :: l' => if ge x y then x :: y :: l' else y :: insert_desc x l'
  end.

Definition sort_desc (l : list A) : list A :=
  fold_right insert_desc [] l.
End StableSort.

(** ** Tables *)

Definition Series (V : Type) : Type := list (string * V).

Record DataFrame : Type := mkDataFrame {
  nrows : nat;
  cols : Series (list Q)
}.

Definition columns (df : DataFrame) : list string := map fst (cols df).

(** A well-formed table: the labels are distinct (the reducer yields one
    column per node) and every column holds one value per row.  The
    embedding follows pandas on such tables. *)
Definition wf_df (df : DataFrame) : Prop :=
  NoDup (columns df) /\
  Forall (fun c => List.length (snd c) = nrows df) (cols df).

Fixpoint lookup {V} (k : string) (s : Series V) : option V :=
  match s with
  | [] => None
  | (k', v) :: s' => if String.eqb k k' then Some v else lookup k s'
  end.

Definition mem (k : string) (l : list string) : bool :=
  existsb (String.eqb k) l.

(** [df[column]] *)
Definition getitem (df : DataFrame) (column : string) : M (list Q) :=
  match lookup column (cols df) with
  | Some v => ret v
  | None => raise KeyError
  end.

(** [df.loc[:, labels]] *)
Fixpoint select (s : Series (list Q)) (labels : list string)
  : M (Series (list Q)) :=
  match labels with
  | [] => ret []
  | c :: rest =>
      match lookup c s with
      | Some v => sel <- select s rest ;; ret ((c, v) :: sel)
      | None => raise KeyError
      end
  end.

Definition loc_columns (df : DataFrame) (labels : list string) : M DataFrame :=
  sel <- select (cols df) labels ;;
  ret (mkDataFrame (nrows df) sel).

(** [pd.concat([a, b], ignore_index=True)] of two frames selected by the
    same labels: the rows of [b] follow the rows of [a]. *)
Definition concat (a b : DataFrame) : DataFrame :=
  mkDataFrame (nrows a + nrows b)
    (map (fun c => (fst c,
                    snd c ++ match lookup (fst c) (cols b) with
                             | Some v => v
                             | None => []
                             end))
         (cols a)).

(** [df.tail(n)] *)
Definition lastn {V} (n : nat) (l : list V) : list V :=
  skipn (List.length l - n) l.

Definition tail (n : nat) (df : DataFrame) : DataFrame :=
  mkDataFrame (Nat.min n (nrows df))
    (map (fun c => (fst c, lastn n (snd c))) (cols df)).

(** [df.iloc[0]] and [df.iloc[-1]]: one value per column. *)
Definition iloc_first (df : DataFrame) : M (Series Q) :=
  match nrows df with
  | O => raise IndexError
  | S _ => ret (map (fun c => (fst c, hd 0%Q (snd c))) (cols df))
  end.

Definition iloc_last (df : DataFrame) : M (Series Q) :=
  match nrows df with
  | O => raise IndexError
  | S _ => ret (map (fun c => (fst c, last (snd c) 0%Q)) (cols df))
  end.

(** Arithmetic of two series over the same index, and by a scalar. *)
Definition series_sub (a b : Series Q) : Series Q :=
  map (fun p => (fst (fst p), (snd (fst p) - snd (snd p))%Q)) (combine a b).

Definition series_div (a b : Series Q) : Series xfloat :=
  map (fun p => (fst (fst p), xdiv (snd (fst p)) (snd (snd p)))) (combine a b).

Definition series_mul (a : Series xfloat) (k : Q) : Series xfloat :=
  map (fun p => (fst p, xscale (snd p) k)) a.

(** [s.sort_values(ascending=False)]: descending, missing values last.
    pandas does not promise the order of equal values with its default
    sorting kind; the properties below use only that the result is a
    sorted rearrangement. *)
Definition sort_values_desc (s : Series xfloat) : Series xfloat :=
  sort_desc (fun a b => xge (snd a) (snd b)) s.

(** [s.head(n).index] *)
Definition head_index {V} (n : nat) (s : Series V) : list string :=
  map fst (firstn n s).

(** ** Python sets of column labels

    [list(set(...))] enumerates a set of strings in an order Python leaves
    unspecified (it changes with the hash seed).  [set_order] gives the
    position of every label in that enumeration; any order of the set is
    obtained from some [set_order]. *)

Section PySet.
Variable set_order : string -> nat.

Definition set_to_list (l : list string) : list string :=
  sort_desc (fun a b => Nat.leb (set_order a) (set_order b))
            (nodup string_dec l).

Definition intersection (a b : list string) : list string :=
  set_to_list (filter (fun c => mem c b) a).

Definition difference (a b : list string) : list string :=
  set_to_list (filter (fun c => negb (mem c b)) a).
End PySet.

(** The text an f-string gives for a list of labels. *)
Fixpoint join (sep : string) (l : list string) : string :=
  match l with
  | [] => ""
  | [s] => s
  | s :: rest => (s ++ sep ++ join sep rest)%string
  end.

Definition repr_list (l : list string) : string :=
  ("[" ++ join ", " (map (fun s => "'" ++ s ++ "'")%string l) ++ "]")%string.

(** ** [sklearn.preprocessing.MinMaxScaler]

    Behaviour of the library as documented: input validation rejects a table
    without rows or without columns with a [ValueError]; every column is
    mapped by [x * scale + min_] with [scale = 1 / range], and a range below
    ten machine epsilons counts as constant and is replaced by 1. *)

Definition qmin_list (x : Q) (l : list Q) : Q := fold_left Qmin l x.
Definition qmax_list (x : Q) (l : list Q) : Q := fold_left Qmax l x.

Definition float_eps : Q := 1 # 4503599627370496.

Definition handle_zeros_in_scale (range : Q) : Q :=
  if Qle_bool (10 * float_eps) range then range else 1.

Definition scale_column (v : list Q) : list Q :=
  match v with
  | [] => []
  | x :: rest =>
      let data_min := qmin_list x rest in
      let data_max := qmax_list x rest in
      let data_range := data_max - data_min in
      let scale := 1 / handle_zeros_in_scale data_range in
      let min_ := 0 - data_min * scale in
      map (fun y => y * scale + min_) v
  end.

Definition fit_transform (df : DataFrame) : M (list (list Q)) :=
  match nrows df with
  | O => raise ValueError
  | S _ =>
      match cols df with
      | [] => raise ValueError
      | _ => ret (map (fun c => scale_column (snd c)) (cols df))
      end
  end.

(** [pd.DataFrame(array, columns=labels)] *)
Definition from_array (n : nat) (arr : list (list Q)) (labels : list string)
  : DataFrame :=
  mkDataFrame n (combine labels arr).

(** ** [scipy.stats.ks_2samp], two-sided statistic

    Behaviour of the library as documented: both samples are sorted, the two
    empirical distribution functions are evaluated on the pooled data, and
    the statistic is the largest absolute difference.  Empty data are
    rejected with a [ValueError]. *)

Definition np_sort (v : list Q) : list Q :=
  sort_desc (fun a b => Qle_bool a b) v.

(** [np.searchsorted(data, x, side='right')] on sorted [data]. *)
Fixpoint searchsorted_right (data : list Q) (x : Q) : nat :=
  match data with
  | [] => O
  | y :: rest => if Qle_bool y x then S (searchsorted_right rest x) else O
  end.

Definition clip (x lo hi : Q) : Q := Qmin (Qmax x lo) hi.

Definition ks_statistic (data1 data2 : list Q) : Q :=
  let data1 := np_sort data1 in
  let data2 := np_sort data2 in
  let n1 := inject_Z (Z.of_nat (List.length data1)) in
  let n2 := inject_Z (Z.of_nat (List.length data2)) in
  let data_all := data1 ++ data2 in
  let cddiffs :=
    map (fun x => inject_Z (Z.of_nat (searchsorted_right data1 x)) / n1
                  - inject_Z (Z.of_nat (searchsorted_right data2 x)) / n2)
        data_all in
  match cddiffs with
  | [] => 0
  | d :: rest =>
      let minS := clip (- qmin_list d rest) 0 1 in
      let maxS := qmax_list d rest in
      Qmax minS maxS
  end.

Definition ks_2samp (data1 data2 : list Q) : M Q :=
  match data1, data2 with
  | [], _ | _, [] => raise ValueError
  | _, _ => ret (ks_statistic data1 data2)
  end.

(** ** Result records *)

(** Modelled from the spec: [rca_task.PotentialRootCause] is not among the
    sources; the spec describes it as the immutable triple
    (node, metric, score). *)
Record PotentialRootCause : Type := mkPotentialRootCause {
  node : string;
  metric : string;
  score : Q
}.

(** [d[k] = v] on a dict, which keeps insertion order. *)
Fixpoint dict_set {V} (k : string) (v : V) (d : Series V) : Series V :=
  match d with
  | [] => [(k, v)]
  | (k', v') :: d' =>
      if String.eqb k k' then (k', v) :: d' else (k', v') :: dict_set k v d'
  end.

(** ** [kstest.py]: [make_kstest] *)

Definition petsite_column : string := "PetSite".

Definition ks_score (ks_stat : Q) : Q := 1 / (1 + ks_stat).

(** Step 5 of the function: the loop over the top columns. *)
Fixpoint ks_loop (result_df : DataFrame) (petsite_data : list Q)
    (top_columns_percentage : list string) (ks_scores : Series Q)
  : M (Series Q) :=
  match top_columns_percentage with
  | [] => ret ks_scores
  | column :: rest =>
      if String.eqb column petsite_column then
        ks_loop result_df petsite_data rest ks_scores
      else
        column_data <- getitem result_df column ;;
        ks_stat <- ks_2samp petsite_data column_data ;;
        ks_loop result_df petsite_data rest
                (dict_set column (ks_score ks_stat) ks_scores)
  end.

(** [sorted(ks_scores.items(), key=lambda item: item[1], reverse=True)] *)
Definition sorted_by_score (items : Series Q) : Series Q :=
  sort_desc (fun a b => Qle_bool (snd b) (snd a)) items.

(** [num / den * 100] in float arithmetic. *)
Definition pct (num den : Q) : xfloat := xscale (xdiv num den) 100.

(** Step 4: percentage decrease for availability, increase otherwise. *)
Definition percentage_change (target_metric : string) (result_df : DataFrame)
  : M (Series xfloat) :=
  if String.eqb target_metric "availability" then
    first <- iloc_first result_df ;;
    last <- iloc_last result_df ;;
    first' <- iloc_first result_df ;;
    ret (series_mul (series_div (series_sub first last) first') 100)
  else
    last <- iloc_last result_df ;;
    first <- iloc_first result_df ;;
    first' <- iloc_first result_df ;;
    ret (series_mul (series_div (series_sub last first) first') 100).

(** [functional_analyze_root_causes] is one Python function; its numbered
    steps are separate definitions here so that the intermediate tables can
    be named in the theorems. *)

Section Kstest.
Context {Graph Raw : Type}.
(** [data_preprocessing.reduce_df] is not among the sources: it is taken
    as given, yielding one column per node. *)
Variable reduce_df : Raw -> string -> string -> DataFrame.
Variable set_order : string -> nat.

(** Step 1 after the reduction: common columns, the two diagnostics,
    restriction of both tables. *)
Definition align_columns (normal_metrics abnormal_metrics : DataFrame)
  : M (DataFrame * DataFrame) :=
  let common_columns :=
    intersection set_order (columns normal_metrics)
                 (columns abnormal_metrics) in
  let missing_in_abnormal :=
    difference set_order (columns normal_metrics)
               (columns abnormal_metrics) in
  let missing_in_normal :=
    difference set_order (columns abnormal_metrics)
               (columns normal_metrics) in
  match missing_in_abnormal with
  | [] => ret tt
  | _ => print ("Columns in normal_metrics but missing in abnormal_metrics: "
                ++ repr_list missing_in_abnormal)%string
  end ;;;
  match missing_in_normal with
  | [] => ret tt
  | _ => print ("Columns in abnormal_metrics but missing in normal_metrics: "
                ++ repr_list missing_in_normal)%string
  end ;;;
  normal_metrics <- loc_columns normal_metrics common_columns ;;
  abnormal_metrics <- loc_columns abnormal_metrics common_columns ;;
  ret (normal_metrics, abnormal_metrics).

(** Step 2: scaling of the combined table. *)
Definition scale (result_df : DataFrame) : M DataFrame :=
  scaled <- fit_transform result_df ;;
  ret (from_array (nrows result_df) scaled (columns result_df)).

(** Steps 1 to 3: the window of the last 5 rows. *)
Definition aligned_window (normal_metrics abnormal_metrics : DataFrame)
  : M DataFrame :=
  aligned <- align_columns normal_metrics abnormal_metrics ;;
  let result_df := concat (fst aligned) (snd aligned) in
  result_df <- scale result_df ;;
  ret (tail 5 result_df).

(** Step 4: the top 10 columns by percentage change. *)
Definition top_columns (target_metric : string) (result_df : DataFrame)
  : M (list string) :=
  percentage_change <- percentage_change target_metric result_df ;;
  let sorted_columns_percentage := sort_values_desc percentage_change in
  ret (head_index 10 sorted_columns_percentage).

(** Steps 5 and 6: scores against the PetSite column, result records. *)
Definition rank_by_ks (target_metric : string) (result_df : DataFrame)
    (top_columns_percentage : list string) : M (list PotentialRootCause) :=
  if negb (mem petsite_column (columns result_df)) then
    print ("Column '" ++ petsite_column ++ "' not found in the data.")%string ;;;
    ret []
  else
    petsite_data <- getitem result_df petsite_column ;;
    ks_scores <- ks_loop result_df petsite_data top_columns_percentage [] ;;
    let sorted_columns_by_ks := sorted_by_score ks_scores in
    ret (map (fun item =>
                mkPotentialRootCause (fst item) target_metric (snd item))
             sorted_columns_by_ks).

Definition functional_analyze_root_causes
    (graph : Graph) (target_node target_metric target_statistic : string)
    (normal_metrics abnormal_metrics : Raw)
  : M (list PotentialRootCause) :=
  let statistic_of_interest := target_statistic in
  let normal_metrics :=
    reduce_df normal_metrics target_metric statistic_of_interest in
  let abnormal_metrics :=
    reduce_df abnormal_metrics target_metric statistic_of_interest in
  result_df <- aligned_window normal_metrics abnormal_metrics ;;
  top_columns_percentage <- top_columns target_metric result_df ;;
  rank_by_ks target_metric result_df top_columns_percentage.

Definition make_kstest := functional_analyze_root_causes.
End Kstest.

(** ** [hollow_rca.py]: [make_hollow_rca] *)

Section Hollow.
Context {Graph Raw Rng : Type}.
(** [reduce_df] and [impute_df] of [data_preprocessing] are not among the
    sources; [np_random_rand] is numpy's generator, one draw per call. *)
Variable reduce_df : Raw -> string -> string -> DataFrame.
Variable impute_df : DataFrame -> string -> DataFrame.
Variable np_random_rand : Rng -> Q * Rng.

(** [for _ in range(n): simulated_causes.append(...)] *)
Fixpoint simulate (n : nat) (target_node target_metric : string)
    (simulated_causes : list PotentialRootCause) (rng : Rng)
  : list PotentialRootCause * Rng :=
  match n with
  | O => (simulated_causes, rng)
  | S n' =>
      let (x, rng') := np_random_rand rng in
      simulate n' target_node target_metric
        (simulated_causes ++ [mkPotentialRootCause target_node target_metric x])
        rng'
  end.

Definition analyze_root_causes
    (root_cause_top_k : Z) (imputation_method : string)
    (graph : Graph) (target_node target_metric target_statistic : string)
    (normal_metrics abnormal_metrics : Raw) (rng : Rng)
  : list PotentialRootCause * Rng :=
  let normal_metrics := reduce_df normal_metrics target_metric target_statistic in
  let abnormal_metrics := reduce_df abnormal_metrics target_metric target_statistic in
  let normal_metrics := impute_df normal_metrics imputation_method in
  let abnormal_metrics := impute_df abnormal_metrics imputation_method in
  simulate (Z.to_nat root_cause_top_k) target_node target_metric [] rng.

(** Keyword arguments left out take their defaults. *)
Definition make_hollow_rca (root_cause_top_k : option Z)
    (imputation_method : option string) :=
  analyze_root_causes
    (match root_cause_top_k with Some k => k | None => 3%Z end)
    (match imputation_method with Some m => m | None => "mean" end).
End Hollow.

(** ** Names for intermediate results, used in the statements *)

(** The scaled columns of a table. *)
Definition scaled_cols (df : DataFrame) : Series (list Q) :=
  map (fun c => (fst c, scale_column (snd c))) (cols df).

(** The window obtained from the two restricted tables. *)
Definition window_of (n' a' : DataFrame) : DataFrame :=
  tail 5 (mkDataFrame (nrows (concat n' a')) (scaled_cols (concat n' a'))).

(** The lines the column aligner prints. *)
Definition alignment_diagnostics (set_order : string -> nat)
    (n a : DataFrame) : list string :=
  match difference set_order (columns n) (columns a) with
  | [] => []
  | l => [("Columns in normal_metrics but missing in abnormal_metrics: "
           ++ repr_list l)%string]
  end ++
  match difference set_order (columns a) (columns n) with
  | [] => []
  | l => [("Columns in abnormal_metrics but missing in normal_metrics: "
           ++ repr_list l)%string]
  end.

Definition reference_diagnostic : string :=
  "Column 'PetSite' not found in the data.".

(** The record built from an entry of the score dict. *)
Definition root_cause_of (target_metric : string) (item : string * Q)
  : PotentialRootCause :=
  mkPotentialRootCause (fst item) target_metric (snd item).


(** ** Sample tables *)

Definition df_of (n : nat) (c : Series (list Q)) : DataFrame := mkDataFrame n c.
Definition reduce_id (t : DataFrame) (_ _ : string) : DataFrame := t.
Definition order0 (_ : string) : nat := O.

Definition run (target_metric : string) (normal abnormal : DataFrame)
  : M (list PotentialRootCause) :=
  functional_analyze_root_causes reduce_id order0 tt "PetSite" target_metric
    "Average" normal abnormal.

Definition t_normal : DataFrame :=
  df_of 3 [("PetSite", [1; 2; 3]); ("A", [1; 2; 3]); ("B", [5; 5; 5]);
           ("C", [9; 1; 4])]%Q.
Definition t_abnormal : DataFrame :=
  df_of 3 [("PetSite", [4; 5; 6]); ("A", [4; 5; 6]); ("B", [5; 5; 5]);
           ("C", [0; 7; 7])]%Q.

(** A generator for the examples: it counts its draws. *)
Definition counter_rand (rng : nat) : Q * nat :=
  (1 / inject_Z (Z.of_nat (S rng)), S rng).

(** Two tables without a common column. *)
Definition t_only_a : DataFrame := df_of 2 [("ServiceA", [1; 2])]%Q.
Definition t_only_b : DataFrame := df_of 2 [("ServiceB", [3; 4])]%Q.

(** Tables without rows, with and without the reference column. *)
Definition t_no_rows : DataFrame :=
  df_of 0 [("PetSite", []); ("ServiceA", [])].
Definition t_no_rows_no_ref : DataFrame := df_of 0 [("ServiceA", [])].

(** Tables sharing columns, none of them the reference column. *)
Definition t_no_ref_normal : DataFrame :=
  df_of 2 [("ServiceA", [1; 2]); ("ServiceB", [4; 4])]%Q.
Definition t_no_ref_abnormal : DataFrame :=
  df_of 1 [("ServiceA", [7]); ("ServiceB", [4]); ("ServiceC", [0])]%Q.

(** The successive outputs of the random generator. *)
Fixpoint draws {Rng : Type} (rand : Rng -> Q * Rng) (n : nat) (rng : Rng)
  : list Q * Rng :=
  match n with
  | O => ([], rng)
  | S n' =>
      let (x, rng') := rand rng in
      let (xs, rng'') := draws rand n' rng' in
      (x :: xs, rng'')
  end.

(** A value lies in the unit interval. *)
Definition in_unit (y : Q) : Prop := 0 <= y /\ y <= 1.

(** The statistic of a column of the window against the reference column. *)
Definition statistic_of (w : DataFrame) (column : string) : Q :=
  match lookup petsite_column (cols w), lookup column (cols w) with
  | Some petsite_data, Some column_data =>
      ks_statistic petsite_data column_data
  | _, _ => 0
  end.

(** A window in which "A" repeats the reference column. *)
Definition t_twin : DataFrame :=
  df_of 3 [("PetSite", [1; 2; 4]); ("A", [1; 2; 4]); ("B", [7; 7; 0])]%Q.

(** The records returned for the sample tables. *)
Definition sample_causes : list PotentialRootCause :=
  [mkPotentialRootCause "A" "latency" (25 # 25);
   mkPotentialRootCause "C" "latency" (25 # 35);
   mkPotentialRootCause "B" "latency" (25 # 50)].

Definition twin_causes : list PotentialRootCause :=
  [mkPotentialRootCause "A" "latency" (25 # 25);
   mkPotentialRootCause "B" "latency" (25 # 30)].

(** The last 5 scaled entries of the combined column of a label. *)
Definition combined_tail (n a : DataFrame) (column : string) : list Q :=
  match lookup column (cols n), lookup column (cols a) with
  | Some vn, Some va => lastn 5 (scale_column (vn ++ va))
  | _, _ => []
  end.

(** An enumeration order of sets: shorter labels first. *)
Definition order_by_length (c : string) : nat := String.length c.

(** The record of a column, computed from the two reduced tables alone. *)
Definition record_of (n a : DataFrame) (target_metric column : string)
  : PotentialRootCause :=
  mkPotentialRootCause column target_metric
    (ks_score (ks_statistic (combined_tail n a petsite_column)
                            (combined_tail n a column))).

(** * Properties *)

(** ** The monad *)

Lemma bind_ok {A B} (m : M A) (f : A -> M B) (b : B) :
  outcome (bind m f) = inr b ->
  exists a, outcome m = inr a /\ outcome (f a) = inr b.
Proof.
  destruct m as [out [e | a]]; simpl; [discriminate |].
  destruct (f a) as [out' r] eqn:Hf; simpl; intros ->.
  exists a; rewrite Hf; auto.
Qed.

Lemma bind_ok_intro {A B} (m : M A) (f : A -> M B) (a : A) (b : B) :
  outcome m = inr a -> outcome (f a) = inr b -> outcome (bind m f) = inr b.
Proof.
  destruct m as [out [e | a']]; simpl; [discriminate |].
  intros [= ->]. destruct (f a) as [out' r]; simpl; auto.
Qed.

Lemma bind_raise {A B} (m : M A) (f : A -> M B) (e : exn) :
  outcome m = inl e -> outcome (bind m f) = inl e.
Proof.
  destruct m as [out [e' | a]]; unfold outcome; simpl; intros H;
    [now inversion H | discriminate].
Qed.

Lemma bind_stdout {A B} (m : M A) (f : A -> M B) (a : A) :
  outcome m = inr a -> stdout (bind m f) = stdout m ++ stdout (f a).
Proof.
  destruct m as [out [e | a']]; simpl; [discriminate |].
  intros [= ->]. destruct (f a) as [out' r]; reflexivity.
Qed.

Lemma outcome_ret {A} (a : A) : outcome (ret a) = inr a.
Proof. reflexivity. Qed.

(** ** The stable sort *)

Section StableSortFacts.
Context {A : Type} (ge : A -> A -> bool).
Hypothesis ge_total : forall x y, ge x y = false -> ge y x = true.

Lemma insert_desc_perm (x : A) (l : list A) :
  Permutation (insert_desc ge x l) (x :: l).
Proof.
  induction l as [| y l IH]; simpl; [reflexivity |].
  destruct (ge x y); [reflexivity |].
  rewrite IH. apply perm_swap.
Qed.

Lemma sort_desc_perm (l : list A) : Permutation (sort_desc ge l) l.
Proof.
  induction l as [| x l IH]; simpl; [reflexivity |].
  rewrite insert_desc_perm. now constructor.
Qed.

Lemma insert_desc_hdrel (a x : A) (l : list A) :
  ge a x = true ->
  HdRel (fun u v => ge u v = true) a l ->
  HdRel (fun u v => ge u v = true) a (insert_desc ge x l).
Proof.
  intros Hax H. destruct l as [| y l]; simpl; [now constructor |].
  destruct (ge x y); constructor; [assumption |].
  now inversion H.
Qed.

Lemma insert_desc_sorted (x : A) (l : list A) :
  Sorted (fun u v => ge u v = true) l ->
  Sorted (fun u v => ge u v = true) (insert_desc ge x l).
Proof.
  induction l as [| y l IH]; simpl; intros Hs.
  - repeat constructor.
  - destruct (ge x y) eqn:Hxy.
    + constructor; [assumption | now constructor].
    + inversion Hs; subst. constructor; [auto |].
      apply insert_desc_hdrel; auto.
Qed.

Lemma sort_desc_sorted (l : list A) :
  Sorted (fun u v => ge u v = true) (sort_desc ge l).
Proof.
  induction l as [| x l IH]; simpl; [constructor |].
  now apply insert_desc_sorted.
Qed.

(** Stability: a class of elements that the order cannot tell apart keeps
    its original order. *)
Lemma insert_desc_filter (p : A -> bool) (x : A) (l : list A) :
  (forall y, p x = true -> p y = true -> ge x y = true) ->
  filter p (insert_desc ge x l) = filter p (x :: l).
Proof.
  intros Hp. induction l as [| y l IH]; [reflexivity |].
  simpl insert_desc. destruct (ge x y) eqn:Hxy; [reflexivity |].
  simpl in *. rewrite IH.
  destruct (p x) eqn:Hx, (p y) eqn:Hy; try reflexivity.
  rewrite Hp in Hxy; [discriminate | reflexivity | assumption].
Qed.

Lemma sort_desc_filter (p : A -> bool) (l : list A) :
  (forall x y, p x = true -> p y = true -> ge x y = true) ->
  filter p (sort_desc ge l) = filter p l.
Proof.
  intros Hp. induction l as [| x l IH]; [reflexivity |].
  simpl sort_desc. rewrite insert_desc_filter by (intros; now apply Hp).
  simpl. now rewrite IH.
Qed.
End StableSortFacts.

Lemma sort_desc_in {A} (ge : A -> A -> bool) (l : list A) (x : A) :
  In x (sort_desc ge l) <-> In x l.
Proof.
  split; apply Permutation_in; [| symmetry]; apply sort_desc_perm.
Qed.

Lemma sort_desc_length {A} (ge : A -> A -> bool) (l : list A) :
  List.length (sort_desc ge l) = List.length l.
Proof. apply Permutation_length, sort_desc_perm. Qed.

(** ** Labels, lookups and column selection *)

Lemma mem_In (k : string) (l : list string) : mem k l = true <-> In k l.
Proof.
  unfold mem. rewrite existsb_exists. split.
  - intros [x [Hin Heq]]. apply String.eqb_eq in Heq. now subst.
  - intros Hin. exists k. split; [assumption | apply String.eqb_refl].
Qed.

Lemma mem_false (k : string) (l : list string) : mem k l = false <-> ~ In k l.
Proof.
  rewrite <- mem_In. destruct (mem k l); split; congruence.
Qed.

Lemma lookup_In {V} (k : string) (s : Series V) (v : V) :
  lookup k s = Some v -> In (k, v) s.
Proof.
  induction s as [| [k' v'] s IH]; simpl; [discriminate |].
  destruct (String.eqb k k') eqn:E.
  - apply String.eqb_eq in E. intros [= ->]. left. now subst.
  - intros H. right. auto.
Qed.

Lemma lookup_key {V} (k : string) (s : Series V) :
  In k (map fst s) -> exists v, lookup k s = Some v.
Proof.
  induction s as [| [k' v'] s IH]; simpl; [tauto |].
  destruct (String.eqb k k') eqn:E; [eauto |].
  intros [H | H]; [| auto].
  subst. rewrite String.eqb_refl in E. discriminate.
Qed.

Lemma select_stdout (s : Series (list Q)) (labels : list string) :
  stdout (select s labels) = [].
Proof.
  induction labels as [| c rest IH]; [reflexivity |]. simpl.
  destruct (lookup c s); [| reflexivity].
  destruct (select s rest) as [out [e | sel]]; simpl in *; subst; reflexivity.
Qed.

Lemma select_ok (s : Series (list Q)) (labels : list string) (sel : Series (list Q)) :
  outcome (select s labels) = inr sel ->
  map fst sel = labels /\ Forall (fun c => In c s) sel.
Proof.
  revert sel. induction labels as [| c rest IH]; simpl; intros sel.
  - intros [= <-]. split; constructor.
  - destruct (lookup c s) as [v |] eqn:Hl; [| discriminate].
    intros H. apply bind_ok in H as [sel' [H1 H2]].
    injection H2 as <-. destruct (IH _ H1) as [IH1 IH2].
    split; simpl; [now f_equal |].
    constructor; [now apply lookup_In | assumption].
Qed.

Lemma select_total (s : Series (list Q)) (labels : list string) :
  (forall c, In c labels -> In c (map fst s)) ->
  exists sel, outcome (select s labels) = inr sel.
Proof.
  induction labels as [| c rest IH]; simpl; intros Hin; [eauto |].
  destruct (lookup_key c s) as [v Hv]; [auto |]. rewrite Hv.
  destruct IH as [sel Hsel]; [auto |].
  exists ((c, v) :: sel). eapply bind_ok_intro; eauto.
Qed.

Lemma select_raises (s : Series (list Q)) (labels : list string) (e : exn) :
  outcome (select s labels) = inl e ->
  exists c, In c labels /\ ~ In c (map fst s).
Proof.
  revert e. induction labels as [| c rest IH]; simpl; intros e; [discriminate |].
  destruct (lookup c s) as [v |] eqn:Hl.
  - destruct (select s rest) as [out [e' | sel]] eqn:Hs; simpl.
    + intros _. destruct (IH e') as [c' [H1 H2]]; [reflexivity |]. eauto.
    + discriminate.
  - intros _. exists c. split; [auto |]. intros Hin.
    apply lookup_key in Hin as [v Hv]. congruence.
Qed.

Lemma loc_columns_ok (df df' : DataFrame) (labels : list string) :
  outcome (loc_columns df labels) = inr df' ->
  columns df' = labels /\ nrows df' = nrows df /\
  Forall (fun c => In c (cols df)) (cols df').
Proof.
  unfold loc_columns. intros H. apply bind_ok in H as [sel [H1 H2]].
  injection H2 as <-. apply select_ok in H1 as [H1 H3]. auto.
Qed.

Lemma loc_columns_total (df : DataFrame) (labels : list string) :
  (forall c, In c labels -> In c (columns df)) ->
  exists df', outcome (loc_columns df labels) = inr df'.
Proof.
  intros H. destruct (select_total (cols df) labels H) as [sel Hsel].
  eexists. unfold loc_columns. eapply bind_ok_intro; eauto. reflexivity.
Qed.

Lemma loc_columns_stdout (df : DataFrame) (labels : list string) :
  stdout (loc_columns df labels) = [].
Proof.
  unfold loc_columns. pose proof (select_stdout (cols df) labels) as H.
  destruct (select (cols df) labels) as [out [e | sel]]; simpl in *;
    subst; reflexivity.
Qed.

(** ** Python sets *)

Section PySetFacts.
Variable set_order : string -> nat.

Lemma set_to_list_In (l : list string) (c : string) :
  In c (set_to_list set_order l) <-> In c l.
Proof.
  unfold set_to_list. rewrite sort_desc_in. apply nodup_In.
Qed.

Lemma set_to_list_NoDup (l : list string) : NoDup (set_to_list set_order l).
Proof.
  unfold set_to_list.
  eapply Permutation_NoDup;
    [symmetry; apply sort_desc_perm | apply NoDup_nodup].
Qed.

Lemma intersection_In (a b : list string) (c : string) :
  In c (intersection set_order a b) <-> In c a /\ In c b.
Proof.
  unfold intersection. rewrite set_to_list_In, filter_In, mem_In. tauto.
Qed.

Lemma difference_In (a b : list string) (c : string) :
  In c (difference set_order a b) <-> In c a /\ ~ In c b.
Proof.
  unfold difference. rewrite set_to_list_In, filter_In, negb_true_iff, mem_false.
  tauto.
Qed.

Lemma intersection_NoDup (a b : list string) :
  NoDup (intersection set_order a b).
Proof. apply set_to_list_NoDup. Qed.
End PySetFacts.

(** ** Steps 1 to 3: the aligned, scaled window *)

Ltac monad_inv H :=
  let a := fresh "a" in
  let H1 := fresh H in
  apply bind_ok in H as [a [H1 H]].

Lemma combine_map {U V W} (f : U -> V) (g : U -> W) (l : list U) :
  combine (map f l) (map g l) = map (fun x => (f x, g x)) l.
Proof. induction l; simpl; congruence. Qed.

Lemma scale_total (df : DataFrame) :
  (0 < nrows df)%nat -> cols df <> [] ->
  scale df = ([], inr (mkDataFrame (nrows df) (scaled_cols df))).
Proof.
  unfold scale, fit_transform, from_array, columns, scaled_cols.
  intros Hn Hc.
  destruct (nrows df); [lia |]. destruct (cols df) eqn:E; [congruence |].
  cbv [bind ret app]. rewrite combine_map. reflexivity.
Qed.

Lemma scale_raises (df : DataFrame) :
  nrows df = O \/ cols df = [] -> scale df = ([], inl ValueError).
Proof.
  unfold scale, fit_transform. intros [H | H]; rewrite H.
  - reflexivity.
  - destruct (nrows df); reflexivity.
Qed.


Section WindowFacts.
Variable set_order : string -> nat.

Let common (n a : DataFrame) : list string :=
  intersection set_order (columns n) (columns a).

Lemma align_columns_run (n a : DataFrame) :
  exists n' a',
    align_columns set_order n a
      = (alignment_diagnostics set_order n a, inr (n', a')) /\
    outcome (loc_columns n (common n a)) = inr n' /\
    outcome (loc_columns a (common n a)) = inr a'.
Proof.
  destruct (loc_columns_total n (common n a)) as [n' Hn].
  { intros c Hc. apply intersection_In in Hc. tauto. }
  destruct (loc_columns_total a (common n a)) as [a' Ha].
  { intros c Hc. apply intersection_In in Hc. tauto. }
  exists n', a'. split; [| auto].
  unfold align_columns, alignment_diagnostics. fold (common n a).
  pose proof (loc_columns_stdout n (common n a)) as Sn.
  pose proof (loc_columns_stdout a (common n a)) as Sa.
  destruct (loc_columns n (common n a)) as [on rn].
  destruct (loc_columns a (common n a)) as [oa ra].
  unfold stdout, outcome in *; simpl in *; subst.
  destruct (difference set_order (columns n) (columns a));
    destruct (difference set_order (columns a) (columns n)); reflexivity.
Qed.

Lemma concat_columns (n a : DataFrame) :
  columns (concat n a) = columns n.
Proof.
  unfold concat, columns; simpl. rewrite map_map. reflexivity.
Qed.

Lemma scaled_cols_columns (df : DataFrame) :
  map fst (scaled_cols df) = columns df.
Proof. unfold scaled_cols, columns. rewrite map_map. reflexivity. Qed.

Lemma tail_columns (k : nat) (df : DataFrame) :
  columns (tail k df) = columns df.
Proof. unfold tail, columns; simpl. rewrite map_map. reflexivity. Qed.

Lemma aligned_window_run (n a : DataFrame) :
  exists n' a',
    outcome (loc_columns n (common n a)) = inr n' /\
    outcome (loc_columns a (common n a)) = inr a' /\
    aligned_window set_order n a =
      (alignment_diagnostics set_order n a,
       if (Nat.eqb (nrows n + nrows a) 0 || 
           match common n a with [] => true | _ => false end)%bool
       then inl ValueError
       else inr (window_of n' a')).
Proof.
  destruct (align_columns_run n a) as [n' [a' [Hrun [Hn Ha]]]].
  exists n', a'. split; [assumption |]. split; [assumption |].
  unfold aligned_window. rewrite Hrun. cbn [bind fst snd].
  destruct (loc_columns_ok _ _ _ Hn) as [Cn [Rn _]].
  destruct (loc_columns_ok _ _ _ Ha) as [Ca [Ra _]].
  assert (Hrows : nrows (concat n' a') = (nrows n + nrows a)%nat)
    by (simpl; congruence).
  assert (Hcols : columns (concat n' a') = common n a)
    by (rewrite concat_columns; assumption).
  destruct (Nat.eqb (nrows n + nrows a) 0) eqn:E0; simpl orb.
  - apply Nat.eqb_eq in E0.
    rewrite scale_raises by (left; lia). simpl.
    now rewrite app_nil_r.
  - apply Nat.eqb_neq in E0.
    destruct (common n a) eqn:Ec.
    + rewrite scale_raises.
      * simpl. now rewrite app_nil_r.
      * right. unfold columns in Hcols.
        destruct (cols (concat n' a')); [reflexivity | discriminate].
    + rewrite scale_total.
      * simpl. rewrite app_nil_r. reflexivity.
      * lia.
      * unfold columns in Hcols. intros Hnil. rewrite Hnil in Hcols.
        discriminate.
Qed.
End WindowFacts.

(** ** Step 4: percentage change *)

Lemma percentage_change_run (target_metric : string) (w : DataFrame) :
  (0 < nrows w)%nat ->
  percentage_change target_metric w =
  ([], inr (map (fun c =>
                   (fst c,
                    if String.eqb target_metric "availability"
                    then pct (hd 0 (snd c) - last (snd c) 0) (hd 0 (snd c))
                    else pct (last (snd c) 0 - hd 0 (snd c)) (hd 0 (snd c))))
                (cols w))).
Proof.
  intros Hn. unfold percentage_change, iloc_first, iloc_last.
  destruct (nrows w); [lia |].
  destruct (String.eqb target_metric "availability");
    cbv [bind ret app]; unfold series_mul, series_div, series_sub;
    rewrite combine_map, !map_map, combine_map, !map_map; reflexivity.
Qed.

Lemma percentage_change_raises (target_metric : string) (w : DataFrame) :
  nrows w = O -> percentage_change target_metric w = ([], inl IndexError).
Proof.
  intros Hn. unfold percentage_change, iloc_first, iloc_last. rewrite Hn.
  destruct (String.eqb target_metric "availability"); reflexivity.
Qed.

Lemma percentage_change_index (target_metric : string) (w : DataFrame)
    (pc : Series xfloat) :
  outcome (percentage_change target_metric w) = inr pc ->
  map fst pc = columns w.
Proof.
  destruct (Nat.eq_dec (nrows w) 0) as [Hn | Hn].
  - rewrite percentage_change_raises by assumption. discriminate.
  - rewrite percentage_change_run by lia. intros [= <-].
    rewrite map_map. reflexivity.
Qed.

Lemma hd_skipn {V} (k : nat) (l : list V) (d : V) :
  hd d (skipn k l) = nth k l d.
Proof.
  revert l. induction k as [| k IH]; intros [| x l]; simpl; auto.
Qed.

Lemma last_skipn {V} (k : nat) (l : list V) (d : V) :
  (k < List.length l)%nat -> last (skipn k l) d = last l d.
Proof.
  revert l. induction k as [| k IH]; intros [| x l]; simpl; intros H;
    try reflexivity; try lia.
  rewrite IH by lia. destruct l; [simpl in H; lia | reflexivity].
Qed.

Lemma last_lastn {V} (n : nat) (l : list V) (d : V) :
  (0 < n)%nat -> last (lastn n l) d = last l d.
Proof.
  intros Hn. unfold lastn. destruct l as [| x l]; [reflexivity |].
  apply last_skipn. cbn [List.length]. lia.
Qed.

Lemma hd_lastn {V} (n : nat) (l : list V) (d : V) :
  hd d (lastn n l) = nth (List.length l - n) l d.
Proof. apply hd_skipn. Qed.

Lemma lastn_length {V} (n : nat) (l : list V) :
  List.length (lastn n l) = Nat.min n (List.length l).
Proof. unfold lastn. rewrite length_skipn. lia. Qed.

(** ** Step 4, continued: the top columns *)

Lemma top_columns_inv (target_metric : string) (w : DataFrame)
    (top : list string) :
  outcome (top_columns target_metric w) = inr top ->
  exists pc,
    outcome (percentage_change target_metric w) = inr pc /\
    top = head_index 10 (sort_values_desc pc).
Proof.
  unfold top_columns. intros H. monad_inv H. injection H as <-. eauto.
Qed.

Lemma firstn_In {V} (n : nat) (l : list V) (x : V) :
  In x (firstn n l) -> In x l.
Proof.
  intros H. rewrite <- (firstn_skipn n l). apply in_or_app. now left.
Qed.

Lemma top_columns_In (target_metric : string) (w : DataFrame)
    (top : list string) (c : string) :
  outcome (top_columns target_metric w) = inr top ->
  In c top -> In c (columns w).
Proof.
  intros H Hc. apply top_columns_inv in H as [pc [Hpc ->]].
  rewrite <- (percentage_change_index _ _ _ Hpc).
  unfold head_index in Hc. apply in_map_iff in Hc as [x [<- Hx]].
  apply in_map. apply firstn_In in Hx.
  unfold sort_values_desc in Hx. now apply sort_desc_in in Hx.
Qed.

Lemma top_columns_stdout (target_metric : string) (w : DataFrame) :
  stdout (top_columns target_metric w) = [].
Proof.
  unfold top_columns.
  destruct (Nat.eq_dec (nrows w) 0) as [Hn | Hn].
  - rewrite percentage_change_raises by assumption. reflexivity.
  - rewrite percentage_change_run by lia. reflexivity.
Qed.

(** ** Step 5: the Kolmogorov-Smirnov statistic and the score *)

Lemma clip_nonneg (x : Q) : 0 <= clip x 0 1.
Proof.
  unfold clip. apply Q.min_glb; [apply Q.le_max_r | discriminate].
Qed.

Lemma ks_statistic_nonneg (data1 data2 : list Q) :
  0 <= ks_statistic data1 data2.
Proof.
  unfold ks_statistic.
  destruct (map _ (np_sort data1 ++ np_sort data2)) as [| d rest].
  - apply Qle_refl.
  - eapply Qle_trans; [apply clip_nonneg | apply Q.le_max_l].
Qed.

Lemma ks_score_bounds (d : Q) :
  0 <= d ->
  0 < ks_score d /\ ks_score d <= 1 /\ (ks_score d == 1 <-> d == 0).
Proof.
  intros Hd. unfold ks_score.
  assert (Hpos : 0 < 1 + d).
  { apply Qlt_le_trans with (1 + 0); [reflexivity |].
    apply Qplus_le_r; assumption. }
  assert (Hne : ~ 1 + d == 0) by (intros E; rewrite E in Hpos; discriminate).
  split; [| split].
  - apply Qlt_shift_div_l; [assumption |]. rewrite Qmult_0_l. reflexivity.
  - apply Qle_shift_div_r; [assumption |]. rewrite Qmult_1_l.
    rewrite <- (Qplus_0_r 1) at 1. apply Qplus_le_r; assumption.
  - split; intros E.
    + assert (E1 : 1 == 1 + d).
      { rewrite <- (Qmult_div_r 1 (1 + d)) at 1 by assumption.
        rewrite E. ring. }
      apply (Qplus_inj_l _ _ 1). rewrite <- E1. ring.
    + rewrite E. reflexivity.
Qed.

Lemma ks_2samp_inv (data1 data2 : list Q) (d : Q) :
  outcome (ks_2samp data1 data2) = inr d -> d = ks_statistic data1 data2.
Proof.
  unfold ks_2samp.
  destruct data1, data2; unfold outcome; simpl; intros H;
    try discriminate; now inversion H.
Qed.

Lemma ks_2samp_total (data1 data2 : list Q) :
  data1 <> [] -> data2 <> [] ->
  ks_2samp data1 data2 = ([], inr (ks_statistic data1 data2)).
Proof.
  unfold ks_2samp. destruct data1, data2; intros H1 H2;
    try congruence; reflexivity.
Qed.

Lemma dict_set_In {V} (k k0 : string) (v v0 : V) (d : Series V) :
  In (k, v) (dict_set k0 v0 d) -> In (k, v) d \/ (k = k0 /\ v = v0).
Proof.
  induction d as [| [k' v'] d IH]; simpl.
  - intros [[= <- <-] | []]. auto.
  - destruct (String.eqb k0 k') eqn:E; simpl.
    + apply String.eqb_eq in E. subst.
      intros [[= <- <-] | H]; auto.
    + intros [H | H]; [auto |]. destruct (IH H); auto.
Qed.

(** Every entry of the dict the loop returns was there before the loop or
    is the score of a candidate column other than PetSite. *)
Lemma ks_loop_inv (w : DataFrame) (pd : list Q) (cands : list string)
    (acc res : Series Q) :
  outcome (ks_loop w pd cands acc) = inr res ->
  forall k v, In (k, v) res ->
    In (k, v) acc \/
    (In k cands /\ k <> petsite_column /\
     exists cd, lookup k (cols w) = Some cd /\
                v = ks_score (ks_statistic pd cd)).
Proof.
  revert acc. induction cands as [| c rest IH]; simpl; intros acc H k v Hin.
  - injection H as <-. auto.
  - destruct (String.eqb c petsite_column) eqn:E.
    + destruct (IH _ H _ _ Hin) as [? | [? ?]]; auto.
    + apply String.eqb_neq in E.
      monad_inv H. monad_inv H.
      unfold getitem in H0.
      destruct (lookup c (cols w)) as [cd |] eqn:Hl; [| discriminate].
      injection H0 as <-. apply ks_2samp_inv in H1. subst.
      destruct (IH _ H _ _ Hin) as [Hacc | [? ?]]; [| auto].
      apply dict_set_In in Hacc as [? | [-> ->]]; [auto |].
      right. split; [auto |]. split; [assumption |]. eauto.
Qed.

Lemma ks_loop_total (w : DataFrame) (pd : list Q) (cands : list string)
    (acc : Series Q) :
  pd <> [] ->
  (forall c, In c cands -> c <> petsite_column ->
             exists cd, lookup c (cols w) = Some cd /\ cd <> []) ->
  exists res, ks_loop w pd cands acc = ([], inr res).
Proof.
  intros Hpd. revert acc.
  induction cands as [| c rest IH]; simpl; intros acc Hc;
    [now eexists |].
  destruct (String.eqb c petsite_column) eqn:E.
  - apply IH. intros; apply Hc; auto.
  - apply String.eqb_neq in E.
    destruct (Hc c) as [cd [Hl Hne]]; auto.
    unfold getitem. rewrite Hl. cbv [bind ret].
    rewrite ks_2samp_total by assumption.
    destruct (IH (dict_set c (ks_score (ks_statistic pd cd)) acc))
      as [res Hres]; [intros; apply Hc; auto |].
    rewrite Hres. eexists; reflexivity.
Qed.

(** ** Steps 5 and 6 and the whole function *)

Lemma rank_by_ks_inv (target_metric : string) (w : DataFrame)
    (top : list string) (l : list PotentialRootCause) :
  outcome (rank_by_ks target_metric w top) = inr l ->
  (mem petsite_column (columns w) = false /\ l = []) \/
  (mem petsite_column (columns w) = true /\
   exists pd ks_scores,
     lookup petsite_column (cols w) = Some pd /\
     outcome (ks_loop w pd top []) = inr ks_scores /\
     l = map (root_cause_of target_metric) (sorted_by_score ks_scores)).
Proof.
  unfold rank_by_ks.
  destruct (mem petsite_column (columns w)); simpl negb; cbv iota.
  - intros H. right. split; [reflexivity |].
    monad_inv H. monad_inv H. injection H as <-.
    unfold getitem in H0.
    destruct (lookup petsite_column (cols w)) as [pd |]; [| discriminate].
    injection H0 as <-. eauto.
  - intros H. left. split; [reflexivity |].
    simpl in H. congruence.
Qed.

Section AnalyzeFacts.
Context {Graph Raw : Type}.
Variable reduce_df : Raw -> string -> string -> DataFrame.
Variable set_order : string -> nat.

Lemma analyze_inv (graph : Graph) (tn tm ts : string) (normal abnormal : Raw)
    (l : list PotentialRootCause) :
  outcome (functional_analyze_root_causes reduce_df set_order
             graph tn tm ts normal abnormal) = inr l ->
  exists w top,
    outcome (aligned_window set_order (reduce_df normal tm ts)
               (reduce_df abnormal tm ts)) = inr w /\
    outcome (top_columns tm w) = inr top /\
    outcome (rank_by_ks tm w top) = inr l.
Proof.
  unfold functional_analyze_root_causes. intros H.
  monad_inv H. monad_inv H. eauto.
Qed.
End AnalyzeFacts.

(** ** Shape of the window *)

Lemma scale_column_length (v : list Q) :
  List.length (scale_column v) = List.length v.
Proof. destruct v; simpl; [reflexivity | now rewrite length_map]. Qed.

Section WindowShape.
Variable set_order : string -> nat.

Lemma aligned_window_ok (n a w : DataFrame) :
  outcome (aligned_window set_order n a) = inr w ->
  columns w = intersection set_order (columns n) (columns a) /\
  nrows w = Nat.min 5 (nrows n + nrows a) /\
  (0 < nrows n + nrows a)%nat /\
  intersection set_order (columns n) (columns a) <> [] /\
  aligned_window set_order n a = (alignment_diagnostics set_order n a, inr w).
Proof.
  destruct (aligned_window_run set_order n a) as [n' [a' [Hn [Ha Hrun]]]].
  rewrite Hrun. unfold outcome; simpl.
  destruct (loc_columns_ok _ _ _ Hn) as [Cn [Rn _]].
  destruct (loc_columns_ok _ _ _ Ha) as [Ca [Ra _]].
  destruct (Nat.eqb (nrows n + nrows a) 0) eqn:E0; simpl; [discriminate |].
  apply Nat.eqb_neq in E0.
  destruct (intersection set_order (columns n) (columns a)) eqn:Ec;
    [discriminate |].
  intros [= <-]. unfold window_of.
  rewrite tail_columns. unfold columns at 1. simpl cols.
  rewrite scaled_cols_columns, concat_columns, Cn. simpl nrows.
  rewrite Rn, Ra. repeat split; try lia; discriminate.
Qed.

Lemma aligned_window_total (n a : DataFrame) :
  (0 < nrows n + nrows a)%nat ->
  intersection set_order (columns n) (columns a) <> [] ->
  exists w, outcome (aligned_window set_order n a) = inr w.
Proof.
  intros Hrows Hcols.
  destruct (aligned_window_run set_order n a) as [n' [a' [_ [_ Hrun]]]].
  rewrite Hrun. unfold outcome; simpl.
  destruct (Nat.eqb (nrows n + nrows a) 0) eqn:E0.
  { apply Nat.eqb_eq in E0. lia. }
  destruct (intersection set_order (columns n) (columns a));
    [congruence |]. simpl. eauto.
Qed.

(** On well-formed tables every column of the window holds one value per
    row of the window. *)
Lemma aligned_window_wf (n a w : DataFrame) :
  wf_df n -> wf_df a ->
  outcome (aligned_window set_order n a) = inr w -> wf_df w.
Proof.
  intros [_ Wn] [_ Wa] H.
  destruct (aligned_window_ok _ _ _ H) as [Hcw [Hrows [Hpos [Hne _]]]].
  split; [rewrite Hcw; apply intersection_NoDup |].
  destruct (aligned_window_run set_order n a) as [n' [a' [Hn [Ha Hrun]]]].
  rewrite Hrun in H. unfold outcome in H; simpl in H.
  destruct (Nat.eqb (nrows n + nrows a) 0); [discriminate |].
  destruct (intersection set_order (columns n) (columns a)) eqn:Ec;
    [congruence |]. simpl in H. injection H as <-.
  destruct (loc_columns_ok _ _ _ Hn) as [Cn [Rn Fn]].
  destruct (loc_columns_ok _ _ _ Ha) as [Ca [Ra Fa]].
  unfold window_of, tail, scaled_cols, concat in *. simpl.
  rewrite !Forall_map. simpl.
  rewrite Forall_forall in *. intros [k v] Hkv. simpl.
  rewrite lastn_length, scale_column_length, length_app.
  pose proof (Wn _ (Fn _ Hkv)) as En. simpl in En. rewrite En.
  destruct (lookup_key k (cols a')) as [v' Hv'].
  { fold (columns a'). rewrite Ca, <- Cn. unfold columns.
    apply (in_map fst) in Hkv. exact Hkv. }
  rewrite Hv'. apply lookup_In in Hv'.
  pose proof (Wa _ (Fa _ Hv')) as Ea. simpl in Ea. rewrite Ea.
  rewrite Rn, Ra. reflexivity.
Qed.
End WindowShape.

(** ** Running the whole function from the results of its steps *)

Section AnalyzeRun.
Context {Graph Raw : Type}.
Variable reduce_df : Raw -> string -> string -> DataFrame.
Variable set_order : string -> nat.

Lemma analyze_run (graph : Graph) (tn tm ts : string) (normal abnormal : Raw)
    (w : DataFrame) (top : list string) (o1 : list string) :
  aligned_window set_order (reduce_df normal tm ts) (reduce_df abnormal tm ts)
    = (o1, inr w) ->
  outcome (top_columns tm w) = inr top ->
  functional_analyze_root_causes reduce_df set_order graph tn tm ts
    normal abnormal
  = (o1 ++ stdout (rank_by_ks tm w top), outcome (rank_by_ks tm w top)).
Proof.
  intros Hw Htop. unfold functional_analyze_root_causes.
  rewrite Hw. cbn [bind].
  pose proof (top_columns_stdout tm w) as Hs.
  destruct (top_columns tm w) as [o2 r2]. unfold stdout, outcome in *.
  simpl in *. subst. simpl.
  destruct (rank_by_ks tm w top) as [o3 r3]. reflexivity.
Qed.

Lemma analyze_raises (graph : Graph) (tn tm ts : string)
    (normal abnormal : Raw) (e : exn) :
  outcome (aligned_window set_order (reduce_df normal tm ts)
             (reduce_df abnormal tm ts)) = inl e ->
  outcome (functional_analyze_root_causes reduce_df set_order graph tn tm ts
             normal abnormal) = inl e.
Proof.
  intros H. unfold functional_analyze_root_causes. now apply bind_raise.
Qed.
End AnalyzeRun.

(** * The claims *)

Section Claims.
Context {Graph Raw : Type}.
Variable reduce_df : Raw -> string -> string -> DataFrame.
Variable set_order : string -> nat.

Let analyze := functional_analyze_root_causes (Graph := Graph) reduce_df set_order.

(** Whenever the two reduced tables share no column, both restricted
    tables are empty and the scaler rejects their concatenation: the call
    ends in a [ValueError] after the alignment diagnostics. *)
Lemma empty_intersection_raises (graph : Graph) (tn tm ts : string)
    (normal abnormal : Raw) :
  intersection set_order (columns (reduce_df normal tm ts))
               (columns (reduce_df abnormal tm ts)) = [] ->
  analyze graph tn tm ts normal abnormal
  = (alignment_diagnostics set_order (reduce_df normal tm ts)
       (reduce_df abnormal tm ts), inl ValueError).
Proof.
  intros Hc. unfold analyze, functional_analyze_root_causes.
  destruct (aligned_window_run set_order (reduce_df normal tm ts)
              (reduce_df abnormal tm ts)) as [n' [a' [_ [_ Hrun]]]].
  rewrite Hrun, Hc, orb_true_r. reflexivity.
Qed.

(** C2 (amended): for every well-formed input whose combined table has
    at least one row and whose tables share at least one column, none of
    the shared columns being 'PetSite', the call returns the empty list,
    raises nothing, and its last printed line is the reference-column
    diagnostic. *)
Theorem C2_reference_missing_returns_empty (graph : Graph)
    (tn tm ts : string) (normal abnormal : Raw) :
  let n := reduce_df normal tm ts in
  let a := reduce_df abnormal tm ts in
  wf_df n -> wf_df a ->
  (0 < nrows n + nrows a)%nat ->
  intersection set_order (columns n) (columns a) <> [] ->
  ~ In petsite_column (intersection set_order (columns n) (columns a)) ->
  analyze graph tn tm ts normal abnormal
  = (alignment_diagnostics set_order n a ++ [reference_diagnostic], inr []).
Proof.
  intros n a _ _ Hrows Hcols Href.
  destruct (aligned_window_total set_order n a Hrows Hcols) as [w Hw].
  destruct (aligned_window_ok _ _ _ _ Hw) as [Cw [Rw [_ [_ Hrun]]]].
  assert (Hn : (0 < nrows w)%nat) by lia.
  assert (Htop : exists top, outcome (top_columns tm w) = inr top).
  { unfold top_columns. rewrite percentage_change_run by assumption.
    eexists; reflexivity. }
  destruct Htop as [top Htop].
  unfold analyze.
  rewrite (analyze_run reduce_df set_order graph tn tm ts normal abnormal
             w top _ Hrun Htop).
  unfold rank_by_ks.
  replace (mem petsite_column (columns w)) with false.
  - reflexivity.
  - symmetry. apply mem_false. now rewrite Cw.
Qed.

(** C8 (amended): for every well-formed input whose combined table has at
    least one row and whose tables share at least one column, the call
    returns a list and raises nothing; this covers combined tables of 1 to
    4 rows and windows whose first row holds a zero. *)
Theorem C8_no_exception_on_nonempty_tables (graph : Graph)
    (tn tm ts : string) (normal abnormal : Raw) :
  let n := reduce_df normal tm ts in
  let a := reduce_df abnormal tm ts in
  wf_df n -> wf_df a ->
  (0 < nrows n + nrows a)%nat ->
  intersection set_order (columns n) (columns a) <> [] ->
  exists l, outcome (analyze graph tn tm ts normal abnormal) = inr l.
Proof.
  intros n a Wn Wa Hrows Hcols.
  destruct (aligned_window_total set_order n a Hrows Hcols) as [w Hw].
  destruct (aligned_window_ok _ _ _ _ Hw) as [Cw [Rw [_ [_ Hrun]]]].
  pose proof (aligned_window_wf _ _ _ _ Wn Wa Hw) as Ww.
  assert (Hn : (0 < nrows w)%nat) by lia.
  assert (Htop : exists top, outcome (top_columns tm w) = inr top).
  { unfold top_columns. rewrite percentage_change_run by assumption.
    eexists; reflexivity. }
  destruct Htop as [top Htop].
  unfold analyze.
  rewrite (analyze_run reduce_df set_order graph tn tm ts normal abnormal
             w top _ Hrun Htop).
  unfold outcome at 1; simpl snd.
  assert (Hdata : forall c, In c (columns w) ->
            exists cd, lookup c (cols w) = Some cd /\ cd <> []).
  { intros c Hc. destruct (lookup_key c (cols w) Hc) as [cd Hcd].
    exists cd. split; [assumption |].
    apply lookup_In in Hcd. destruct Ww as [_ Ww].
    rewrite Forall_forall in Ww. apply Ww in Hcd. simpl in Hcd.
    intros ->. simpl in Hcd. lia. }
  unfold rank_by_ks.
  destruct (mem petsite_column (columns w)) eqn:Hm; simpl negb; cbv iota.
  - apply mem_In in Hm. destruct (Hdata _ Hm) as [pd [Hpd Hne]].
    unfold getitem. rewrite Hpd.
    destruct (ks_loop_total w pd top [] Hne) as [res Hres].
    { intros c Hc _. apply Hdata. eapply top_columns_In; eauto. }
    cbv [bind ret]. rewrite Hres. eexists; reflexivity.
  - eexists; reflexivity.
Qed.
End Claims.

Ltac wf_sample :=
  split;
  [ repeat (constructor; [simpl; intuition discriminate |]); constructor
  | repeat constructor ].

(** C1: at two tables without a common column the call prints both
    missing-column diagnostics and then ends in the scaler's [ValueError]
    instead of returning the empty list. *)
Theorem C1_empty_intersection_value_error :
  run "latency" t_only_a t_only_b
  = (["Columns in normal_metrics but missing in abnormal_metrics: ['ServiceA']";
      "Columns in abnormal_metrics but missing in normal_metrics: ['ServiceB']"],
     inl ValueError).
Proof. vm_compute. reflexivity. Qed.

(** C2, as stated, fails: 'PetSite' is absent from tables without rows, and
    from tables without a common column, and the call raises. *)
Lemma C2_counterexample :
  (wf_df t_no_rows_no_ref /\
   ~ In petsite_column (columns t_no_rows_no_ref) /\
   outcome (run "latency" t_no_rows_no_ref t_no_rows_no_ref) = inl ValueError)
  /\
  (wf_df t_only_a /\ wf_df t_only_b /\
   ~ In petsite_column (intersection order0 (columns t_only_a) (columns t_only_b)) /\
   outcome (run "latency" t_only_a t_only_b) = inl ValueError).
Proof.
  repeat split; try (vm_compute; intuition discriminate);
    try (vm_compute; reflexivity);
    try (repeat (constructor; [simpl; intuition discriminate |]); constructor);
    repeat constructor.
Qed.

Lemma C2_reference_missing_witness :
  run "latency" t_no_ref_normal t_no_ref_abnormal
  = (["Columns in abnormal_metrics but missing in normal_metrics: ['ServiceC']";
      reference_diagnostic], inr []).
Proof.
  apply (C2_reference_missing_returns_empty (Graph := unit) reduce_id order0
           tt "PetSite" "latency" "Average" t_no_ref_normal t_no_ref_abnormal).
  - wf_sample.
  - wf_sample.
  - vm_compute. lia.
  - vm_compute. discriminate.
  - vm_compute. intuition discriminate.
Defined.

(** C8, as stated, fails: well-formed tables without rows make the scaler
    raise, with or without the reference column. *)
Lemma C8_counterexample :
  wf_df t_no_rows /\
  outcome (run "latency" t_no_rows t_no_rows) = inl ValueError.
Proof.
  split; [wf_sample | vm_compute; reflexivity].
Qed.

Lemma C8_no_exception_witness :
  exists l, outcome (run "latency" t_normal t_abnormal) = inr l.
Proof.
  apply (C8_no_exception_on_nonempty_tables (Graph := unit) reduce_id order0
           tt "PetSite" "latency" "Average" t_normal t_abnormal).
  - wf_sample.
  - wf_sample.
  - vm_compute. lia.
  - vm_compute. discriminate.
Defined.

(** ** The Change Filter *)

(** C3: on the window of the last 5 rows of a table with at least one row,
    the percentage change of every column is [(first - last) / first * 100]
    when the target metric is "availability" and
    [(last - first) / first * 100] for every other target metric, where
    [first] and [last] are the column's values in the first and the last
    row of the window; with [first] different from 0 this is the exact
    quotient. *)
Theorem C3_percentage_change_formula (target_metric : string) (df : DataFrame) :
  (0 < nrows df)%nat ->
  outcome (percentage_change target_metric (tail 5 df))
  = inr (map (fun c =>
                let first := nth (List.length (snd c) - 5) (snd c) 0 in
                let last := last (snd c) 0 in
                (fst c,
                 if String.eqb target_metric "availability"
                 then pct (first - last) first
                 else pct (last - first) first))
             (cols df))
  /\
  forall first last : Q, ~ first == 0 ->
    pct (first - last) first = Num ((first - last) / first * 100) /\
    pct (last - first) first = Num ((last - first) / first * 100).
Proof.
  intros Hn. split.
  - rewrite percentage_change_run by (unfold tail; cbn [nrows]; lia).
    unfold outcome; simpl snd. f_equal. unfold tail; simpl cols.
    rewrite map_map. apply map_ext. intros [k v]. simpl fst; simpl snd.
    rewrite !hd_lastn, !last_lastn by lia. reflexivity.
  - intros first last Hf. unfold pct, xdiv.
    destruct (Qeq_bool first 0) eqn:E.
    + apply Qeq_bool_iff in E. contradiction.
    + split; reflexivity.
Qed.

Lemma C3_percentage_change_witness :
  outcome (percentage_change "availability"
             (tail 5 (df_of 2 [("ServiceX", [1; 1 # 2])]%Q)))
  = inr [("ServiceX", pct (1 - (1 # 2)) 1)].
Proof.
  apply (C3_percentage_change_formula "availability"
           (df_of 2 [("ServiceX", [1; 1 # 2])]%Q)).
  simpl. lia.
Defined.

(** ** Scores *)

Section ScoreClaims.
Context {Graph Raw : Type}.
Variable reduce_df : Raw -> string -> string -> DataFrame.
Variable set_order : string -> nat.

(** C4: every returned record carries the score [1 / (1 + D)] where [D]
    is the two-sample statistic of the PetSite column and the record's
    column over the window; [D] is non-negative, the score lies in
    (0, 1], and it is 1 exactly when [D] is 0. *)
Theorem C4_score_is_inverted_statistic (graph : Graph) (tn tm ts : string)
    (normal abnormal : Raw) (l : list PotentialRootCause)
    (r : PotentialRootCause) :
  outcome (functional_analyze_root_causes reduce_df set_order graph tn tm ts
             normal abnormal) = inr l ->
  In r l ->
  exists w petsite_data column_data,
    outcome (aligned_window set_order (reduce_df normal tm ts)
               (reduce_df abnormal tm ts)) = inr w /\
    lookup petsite_column (cols w) = Some petsite_data /\
    lookup (node r) (cols w) = Some column_data /\
    let D := ks_statistic petsite_data column_data in
    0 <= D /\
    score r = 1 / (1 + D) /\
    0 < score r /\ score r <= 1 /\
    (score r == 1 <-> D == 0).
Proof.
  intros H Hr.
  apply analyze_inv in H as [w [top [Hw [Htop Hrank]]]].
  apply rank_by_ks_inv in Hrank as [[_ ->] | [_ [pd [sc [Hpd [Hloop ->]]]]]];
    [destruct Hr |].
  apply in_map_iff in Hr as [[k v] [<- Hin]].
  unfold sorted_by_score in Hin. apply sort_desc_in in Hin.
  destruct (ks_loop_inv _ _ _ _ _ Hloop _ _ Hin)
    as [[] | [_ [_ [cd [Hcd ->]]]]].
  exists w, pd, cd. simpl node; simpl score.
  repeat split; try assumption.
  - apply ks_statistic_nonneg.
  - apply ks_score_bounds, ks_statistic_nonneg.
  - apply ks_score_bounds, ks_statistic_nonneg.
  - apply ks_score_bounds, ks_statistic_nonneg.
  - apply ks_score_bounds, ks_statistic_nonneg.
Qed.
End ScoreClaims.

Lemma C4_score_witness :
  exists w petsite_data column_data,
    outcome (aligned_window order0 t_normal t_abnormal) = inr w /\
    lookup petsite_column (cols w) = Some petsite_data /\
    lookup "B" (cols w) = Some column_data /\
    let D := ks_statistic petsite_data column_data in
    0 <= D /\
    (25 # 50) = 1 / (1 + D) /\
    0 < 25 # 50 /\ 25 # 50 <= 1 /\
    (25 # 50 == 1 <-> D == 0).
Proof.
  apply (C4_score_is_inverted_statistic (Graph := unit) reduce_id order0
           tt "PetSite" "latency" "Average" t_normal t_abnormal
           [mkPotentialRootCause "A" "latency" (25 # 25);
            mkPotentialRootCause "C" "latency" (25 # 35);
            mkPotentialRootCause "B" "latency" (25 # 50)]
           (mkPotentialRootCause "B" "latency" (25 # 50))).
  - vm_compute. reflexivity.
  - simpl. auto.
Defined.

(** ** Order of the score dict *)

Lemma dict_set_fresh {V} (k : string) (v : V) (d : Series V) :
  ~ In k (map fst d) -> dict_set k v d = d ++ [(k, v)].
Proof.
  induction d as [| [k' v'] d IH]; simpl; intros Hk; [reflexivity |].
  destruct (String.eqb k k') eqn:E.
  - apply String.eqb_eq in E. subst. tauto.
  - rewrite IH by tauto. reflexivity.
Qed.

(** On distinct candidates the keys of the dict are the candidates other
    than PetSite, in the order of the candidate list. *)
Lemma ks_loop_keys (w : DataFrame) (pd : list Q) (cands : list string)
    (acc res : Series Q) :
  NoDup cands ->
  (forall c, In c cands -> ~ In c (map fst acc)) ->
  outcome (ks_loop w pd cands acc) = inr res ->
  map fst res
  = map fst acc
    ++ filter (fun c => negb (String.eqb c petsite_column)) cands.
Proof.
  revert acc. induction cands as [| c rest IH]; simpl; intros acc Hnd Hfresh H.
  - injection H as <-. now rewrite app_nil_r.
  - inversion Hnd as [| ? ? Hc Hnd']; subst.
    destruct (String.eqb c petsite_column) eqn:E; simpl negb; cbv iota.
    + apply IH; auto.
    + monad_inv H. monad_inv H.
      rewrite dict_set_fresh in H by auto.
      apply IH in H; [| assumption |].
      * rewrite H, map_app, <- app_assoc. reflexivity.
      * intros c' Hc'. rewrite map_app, in_app_iff. simpl.
        intros [Hin | [<- | []]]; [eapply Hfresh; eauto | contradiction].
Qed.

Lemma NoDup_firstn {V} (n : nat) (l : list V) : NoDup l -> NoDup (firstn n l).
Proof.
  intros H. rewrite <- (firstn_skipn n l) in H.
  eapply NoDup_app_remove_r; eassumption.
Qed.

Lemma top_columns_NoDup (target_metric : string) (w : DataFrame)
    (top : list string) :
  NoDup (columns w) ->
  outcome (top_columns target_metric w) = inr top -> NoDup top.
Proof.
  intros Hnd H. apply top_columns_inv in H as [pc [Hpc ->]].
  unfold head_index. rewrite <- firstn_map. apply NoDup_firstn.
  eapply Permutation_NoDup.
  - apply Permutation_map. symmetry. apply sort_desc_perm.
  - now rewrite (percentage_change_index _ _ _ Hpc).
Qed.

(** ** Order of the result *)

Lemma Sorted_map {U V} (f : U -> V) (R : V -> V -> Prop) (l : list U) :
  Sorted (fun x y => R (f x) (f y)) l -> Sorted R (map f l).
Proof.
  induction 1 as [| x l Hs IH Hhd]; simpl; constructor; [assumption |].
  destruct Hhd; simpl; constructor; assumption.
Qed.

Lemma filter_map_swap {U V} (f : U -> V) (p : V -> bool) (l : list U) :
  filter p (map f l) = map f (filter (fun x => p (f x)) l).
Proof.
  induction l as [| x l IH]; simpl; [reflexivity |].
  destruct (p (f x)); simpl; now rewrite IH.
Qed.

Lemma sorted_by_score_sorted (items : Series Q) :
  Sorted (fun a b => snd b <= snd a) (sorted_by_score items).
Proof.
  unfold sorted_by_score.
  eapply Sorted_ind with
    (P := fun l => Sorted (fun a b => snd b <= snd a) l);
    [constructor | | apply sort_desc_sorted].
  - intros a l _ IH Hhd. constructor; [assumption |].
    destruct Hhd as [| b l' Hb]; constructor.
    now apply Qle_bool_iff.
  - intros x y Hxy. apply Qle_bool_iff.
    destruct (Qlt_le_dec (snd x) (snd y)) as [Hlt | Hle].
    + apply Qlt_le_weak. assumption.
    + apply Qle_bool_iff in Hle. congruence.
Qed.

Lemma sorted_by_score_stable (q : Q) (items : Series Q) :
  filter (fun it => Qeq_bool (snd it) q) (sorted_by_score items)
  = filter (fun it => Qeq_bool (snd it) q) items.
Proof.
  unfold sorted_by_score. apply sort_desc_filter.
  intros x y Hx Hy. apply Qeq_bool_iff in Hx, Hy.
  apply Qle_bool_iff. rewrite Hx, Hy. apply Qle_refl.
Qed.

Section OrderClaims.
Context {Graph Raw : Type}.
Variable reduce_df : Raw -> string -> string -> DataFrame.
Variable set_order : string -> nat.

(** C5: the returned list is sorted by descending score (every adjacent
    pair (a, b) has score(a) >= score(b)), and the sort is stable: the
    records of any one score appear in the order in which the loop over
    the candidate columns entered them into the score dict, which is the
    order of the candidate list without 'PetSite'. *)
Theorem C5_sorted_descending_and_stable (graph : Graph) (tn tm ts : string)
    (normal abnormal : Raw) (l : list PotentialRootCause) :
  outcome (functional_analyze_root_causes reduce_df set_order graph tn tm ts
             normal abnormal) = inr l ->
  Sorted (fun a b => score b <= score a) l /\
  forall w top petsite_data ks_scores,
    outcome (aligned_window set_order (reduce_df normal tm ts)
               (reduce_df abnormal tm ts)) = inr w ->
    outcome (top_columns tm w) = inr top ->
    lookup petsite_column (cols w) = Some petsite_data ->
    outcome (ks_loop w petsite_data top []) = inr ks_scores ->
    map fst ks_scores
    = filter (fun c => negb (String.eqb c petsite_column)) top /\
    forall q,
      filter (fun r => Qeq_bool (score r) q) l
      = map (root_cause_of tm)
            (filter (fun it => Qeq_bool (snd it) q) ks_scores).
Proof.
  intros H.
  apply analyze_inv in H as [w [top [Hw [Htop Hrank]]]].
  apply rank_by_ks_inv in Hrank
    as [[Hm ->] | [Hm [pd [sc [Hpd [Hloop ->]]]]]].
  - split; [constructor |].
    intros w' top' pd' sc' Hw' Htop' Hpd' _. exfalso.
    rewrite Hw in Hw'. injection Hw' as <-.
    apply mem_false in Hm. apply Hm.
    apply lookup_In in Hpd'. apply (in_map fst) in Hpd'. exact Hpd'.
  - split.
    + apply Sorted_map. simpl. apply sorted_by_score_sorted.
    + intros w' top' pd' sc' Hw' Htop' Hpd' Hloop'.
      rewrite Hw in Hw'. injection Hw' as <-.
      rewrite Htop in Htop'. injection Htop' as <-.
      rewrite Hpd in Hpd'. injection Hpd' as <-.
      rewrite Hloop in Hloop'. injection Hloop' as <-.
      split.
      * apply (ks_loop_keys w pd top [] sc); [| intros c _ [] | assumption].
        eapply top_columns_NoDup; [| eassumption].
        destruct (aligned_window_ok _ _ _ _ Hw) as [Cw _].
        rewrite Cw. apply intersection_NoDup.
      * intros q. rewrite filter_map_swap. simpl score.
        now rewrite sorted_by_score_stable.
Qed.
End OrderClaims.

Lemma C5_sorted_witness :
  Sorted (fun a b => score b <= score a)
    [mkPotentialRootCause "A" "latency" (25 # 25);
     mkPotentialRootCause "C" "latency" (25 # 35);
     mkPotentialRootCause "B" "latency" (25 # 50)].
Proof.
  apply (C5_sorted_descending_and_stable (Graph := unit) reduce_id order0
           tt "PetSite" "latency" "Average" t_normal t_abnormal).
  vm_compute. reflexivity.
Defined.

(** ** The candidate set *)

Lemma Qle_bool_total (p q : Q) : Qle_bool q p = false -> Qle_bool p q = true.
Proof.
  intros H. apply Qle_bool_iff.
  destruct (Qlt_le_dec q p) as [Hlt | Hle].
  - apply Qlt_le_weak in Hlt. apply Qle_bool_iff in Hlt. congruence.
  - assumption.
Qed.

Lemma xge_total (x y : xfloat) : xge x y = false -> xge y x = true.
Proof.
  destruct x, y; simpl; try congruence. apply Qle_bool_total.
Qed.

Lemma xge_trans (x y z : xfloat) :
  xge x y = true -> xge y z = true -> xge x z = true.
Proof.
  destruct x, y, z; simpl; try congruence.
  rewrite !Qle_bool_iff. intros H1 H2. eapply Qle_trans; eassumption.
Qed.

Lemma xge_ieee (x y : xfloat) :
  xge x y = true -> is_nan y = true \/ ieee_ge x y.
Proof.
  destruct x, y; simpl; try congruence; auto.
  rewrite Qle_bool_iff. auto.
Qed.

Lemma StronglySorted_impl {V} (R S : V -> V -> Prop) (l : list V) :
  (forall x y, R x y -> S x y) -> StronglySorted R l -> StronglySorted S l.
Proof.
  intros HRS. induction 1 as [| x l Hs IH Hall]; constructor; [assumption |].
  eapply Forall_impl; [| eassumption]. auto.
Qed.

Lemma StronglySorted_app_inv {V} (R : V -> V -> Prop) (l1 l2 : list V) :
  StronglySorted R (l1 ++ l2) ->
  forall x y, In x l1 -> In y l2 -> R x y.
Proof.
  induction l1 as [| a l1 IH]; simpl; intros Hs x y Hx Hy; [destruct Hx |].
  inversion Hs as [| ? ? Hs' Hall]; subst.
  destruct Hx as [<- | Hx].
  - rewrite Forall_forall in Hall. apply Hall, in_or_app. now right.
  - eapply IH; eassumption.
Qed.

Lemma sort_values_desc_sorted (s : Series xfloat) :
  StronglySorted (fun x y => is_nan (snd y) = true \/ ieee_ge (snd x) (snd y))
                 (sort_values_desc s).
Proof.
  apply StronglySorted_impl with (R := fun x y => xge (snd x) (snd y) = true).
  - intros x y. apply xge_ieee.
  - apply Sorted_StronglySorted.
    + intros x y z. apply xge_trans.
    + unfold sort_values_desc. apply sort_desc_sorted.
      intros x y. apply xge_total.
Qed.

(** C6: the candidate list is the first 10 entries (all of them when the
    window has at most 10 columns) of the columns arranged by descending
    percentage change; columns whose change is undefined (NaN) come after
    all the others, as pandas sorts them.  Hence no dropped column has a
    larger change than a kept one. *)
Theorem C6_top_ten_by_descending_change (target_metric : string)
    (w : DataFrame) (top : list string) :
  outcome (top_columns target_metric w) = inr top ->
  exists pc,
    outcome (percentage_change target_metric w) = inr pc /\
    map fst pc = columns w /\
    let later_is_smaller :=
      fun x y : string * xfloat =>
        is_nan (snd y) = true \/ ieee_ge (snd x) (snd y) in
    let sorted := sort_values_desc pc in
    Permutation sorted pc /\
    StronglySorted later_is_smaller sorted /\
    top = map fst (firstn 10 sorted) /\
    List.length top = Nat.min 10 (List.length (columns w)) /\
    (forall x y, In x (firstn 10 sorted) -> In y (skipn 10 sorted) ->
                 later_is_smaller x y) /\
    ((List.length (columns w) <= 10)%nat -> Permutation top (columns w)).
Proof.
  intros H. apply top_columns_inv in H as [pc [Hpc ->]].
  exists pc. split; [assumption |].
  pose proof (percentage_change_index _ _ _ Hpc) as Hidx.
  split; [assumption |]. cbv zeta.
  assert (Hperm : Permutation (sort_values_desc pc) pc)
    by apply sort_desc_perm.
  assert (Hlen : List.length (sort_values_desc pc) = List.length (columns w)).
  { rewrite (Permutation_length Hperm), <- Hidx. now rewrite length_map. }
  repeat split.
  - assumption.
  - apply sort_values_desc_sorted.
  - unfold head_index. rewrite length_map, length_firstn. lia.
  - intros x y Hx Hy.
    apply (StronglySorted_app_inv
             (fun x y : string * xfloat =>
                is_nan (snd y) = true \/ ieee_ge (snd x) (snd y))
             (firstn 10 (sort_values_desc pc))
             (skipn 10 (sort_values_desc pc))); try assumption.
    rewrite firstn_skipn. apply sort_values_desc_sorted.
  - intros Hle. unfold head_index.
    rewrite firstn_all2 by lia. rewrite <- Hidx.
    now apply Permutation_map.
Qed.

Lemma C6_top_ten_witness :
  exists pc,
    outcome (percentage_change "latency" (window_of t_normal t_abnormal))
    = inr pc /\
    map fst pc = columns (window_of t_normal t_abnormal) /\
    let later_is_smaller :=
      fun x y : string * xfloat =>
        is_nan (snd y) = true \/ ieee_ge (snd x) (snd y) in
    let sorted := sort_values_desc pc in
    Permutation sorted pc /\
    StronglySorted later_is_smaller sorted /\
    ["C"; "PetSite"; "A"; "B"] = map fst (firstn 10 sorted) /\
    List.length ["C"; "PetSite"; "A"; "B"]
    = Nat.min 10 (List.length (columns (window_of t_normal t_abnormal))) /\
    (forall x y, In x (firstn 10 sorted) -> In y (skipn 10 sorted) ->
                 later_is_smaller x y) /\
    ((List.length (columns (window_of t_normal t_abnormal)) <= 10)%nat ->
     Permutation ["C"; "PetSite"; "A"; "B"]
       (columns (window_of t_normal t_abnormal))).
Proof.
  apply (C6_top_ten_by_descending_change "latency"
           (window_of t_normal t_abnormal) ["C"; "PetSite"; "A"; "B"]).
  vm_compute. reflexivity.
Defined.

(** ** Normalisation of a constant column *)

Lemma qmin_list_le_init (l : list Q) (x : Q) : qmin_list x l <= x.
Proof.
  unfold qmin_list. revert x. induction l as [| a l IH]; simpl; intros x.
  - apply Qle_refl.
  - eapply Qle_trans; [apply IH | apply Q.le_min_l].
Qed.

Lemma qmin_list_le (l : list Q) (x y : Q) : In y l -> qmin_list x l <= y.
Proof.
  unfold qmin_list. revert x. induction l as [| a l IH]; simpl; intros x Hy;
    [destruct Hy |].
  destruct Hy as [-> | Hy]; [| now apply IH].
  eapply Qle_trans; [apply (qmin_list_le_init l) | apply Q.le_min_r].
Qed.

Lemma qmax_list_ge_init (l : list Q) (x : Q) : x <= qmax_list x l.
Proof.
  unfold qmax_list. revert x. induction l as [| a l IH]; simpl; intros x.
  - apply Qle_refl.
  - eapply Qle_trans; [apply Q.le_max_l | apply IH].
Qed.

Lemma qmax_list_ge (l : list Q) (x y : Q) : In y l -> y <= qmax_list x l.
Proof.
  unfold qmax_list. revert x. induction l as [| a l IH]; simpl; intros x Hy;
    [destruct Hy |].
  destruct Hy as [-> | Hy]; [| now apply IH].
  eapply Qle_trans; [apply Q.le_max_r | apply (qmax_list_ge_init l)].
Qed.





(** ** The returned records *)

Section RecordClaims.
Context {Graph Raw : Type}.
Variable reduce_df : Raw -> string -> string -> DataFrame.
Variable set_order : string -> nat.

(** C9: every returned record has the target metric as its metric, names
    a column that both reduced input tables have, and never names
    'PetSite'. *)
Theorem C9_records_name_common_columns (graph : Graph) (tn tm ts : string)
    (normal abnormal : Raw) (l : list PotentialRootCause)
    (r : PotentialRootCause) :
  outcome (functional_analyze_root_causes reduce_df set_order graph tn tm ts
             normal abnormal) = inr l ->
  In r l ->
  metric r = tm /\
  In (node r) (columns (reduce_df normal tm ts)) /\
  In (node r) (columns (reduce_df abnormal tm ts)) /\
  node r <> petsite_column.
Proof.
  intros H Hr.
  apply analyze_inv in H as [w [top [Hw [Htop Hrank]]]].
  apply rank_by_ks_inv in Hrank as [[_ ->] | [_ [pd [sc [Hpd [Hloop ->]]]]]];
    [destruct Hr |].
  apply in_map_iff in Hr as [[k v] [<- Hin]].
  unfold sorted_by_score in Hin. apply sort_desc_in in Hin.
  destruct (ks_loop_inv _ _ _ _ _ Hloop _ _ Hin)
    as [[] | [Hk [Hne _]]].
  simpl. split; [reflexivity |].
  pose proof (top_columns_In _ _ _ _ Htop Hk) as Hcol.
  destruct (aligned_window_ok _ _ _ _ Hw) as [Cw _].
  rewrite Cw in Hcol. apply intersection_In in Hcol. tauto.
Qed.
End RecordClaims.

Lemma C9_records_witness :
  metric (mkPotentialRootCause "C" "latency" (25 # 35)) = "latency" /\
  In "C" (columns t_normal) /\ In "C" (columns t_abnormal) /\
  "C" <> petsite_column.
Proof.
  apply (C9_records_name_common_columns (Graph := unit) reduce_id order0
           tt "PetSite" "latency" "Average" t_normal t_abnormal
           [mkPotentialRootCause "A" "latency" (25 # 25);
            mkPotentialRootCause "C" "latency" (25 # 35);
            mkPotentialRootCause "B" "latency" (25 # 50)]
           (mkPotentialRootCause "C" "latency" (25 # 35))).
  - vm_compute. reflexivity.
  - simpl. auto.
Defined.

(** ** The stub *)

Section HollowClaims.
Context {Graph Raw Rng : Type}.
Variable reduce_df : Raw -> string -> string -> DataFrame.
Variable impute_df : DataFrame -> string -> DataFrame.
Variable np_random_rand : Rng -> Q * Rng.

Lemma simulate_spec (n : nat) (tn tm : string)
    (acc : list PotentialRootCause) (rng : Rng) :
  exists new,
    fst (simulate np_random_rand n tn tm acc rng) = acc ++ new /\
    List.length new = n /\
    Forall (fun r => node r = tn /\ metric r = tm) new.
Proof.
  revert acc rng. induction n as [| n IH]; simpl; intros acc rng.
  - exists []. rewrite app_nil_r. repeat split. constructor.
  - destruct (np_random_rand rng) as [x rng'].
    destruct (IH (acc ++ [mkPotentialRootCause tn tm x]) rng')
      as [new [H1 [H2 H3]]].
    exists (mkPotentialRootCause tn tm x :: new).
    rewrite H1, <- app_assoc. simpl. repeat split; auto.
Qed.

(** C10: for a non-negative [root_cause_top_k] the stub returns exactly
    that many records (3 when the argument is left out), each with the
    target node as node and the target metric as metric; the records, and
    so their scores, are the same whatever the two metric tables hold. *)
Theorem C10_stub_returns_top_k_records (root_cause_top_k : Z)
    (imputation_method : string) (graph : Graph) (tn tm ts : string)
    (normal abnormal : Raw) (rng : Rng) :
  (0 <= root_cause_top_k)%Z ->
  let causes :=
    fst (make_hollow_rca reduce_df impute_df np_random_rand
           (Some root_cause_top_k) (Some imputation_method)
           graph tn tm ts normal abnormal rng) in
  Z.of_nat (List.length causes) = root_cause_top_k /\
  Forall (fun r => node r = tn /\ metric r = tm) causes /\
  List.length
    (fst (make_hollow_rca reduce_df impute_df np_random_rand None None
            graph tn tm ts normal abnormal rng)) = 3%nat /\
  forall normal' abnormal' : Raw,
    make_hollow_rca reduce_df impute_df np_random_rand
      (Some root_cause_top_k) (Some imputation_method)
      graph tn tm ts normal' abnormal' rng
    = make_hollow_rca reduce_df impute_df np_random_rand
        (Some root_cause_top_k) (Some imputation_method)
        graph tn tm ts normal abnormal rng.
Proof.
  intros Hk. unfold make_hollow_rca, analyze_root_causes. cbv zeta.
  destruct (simulate_spec (Z.to_nat root_cause_top_k) tn tm [] rng)
    as [new [H1 [H2 H3]]].
  destruct (simulate_spec (Z.to_nat 3) tn tm [] rng) as [new3 [G1 [G2 _]]].
  rewrite H1, G1. simpl app.
  repeat split; try assumption.
  rewrite H2. apply Z2Nat.id. assumption.
Qed.
End HollowClaims.

Lemma C10_stub_witness :
  Z.of_nat (List.length
    (fst (make_hollow_rca (Graph := unit) reduce_id (fun d _ => d) counter_rand
            (Some 2%Z) (Some "mean") tt "PetSite" "latency" "Average"
            t_normal t_abnormal O))) = 2%Z.
Proof.
  apply (C10_stub_returns_top_k_records (Graph := unit) reduce_id
           (fun d _ => d) counter_rand 2 "mean" tt "PetSite" "latency"
           "Average" t_normal t_abnormal O).
  lia.
Defined.

(** ** Worked examples *)

(** The constant column "B" is scaled to zeros, so its percentage change is
    0/0: it is ranked last among the candidates and still scored. *)
Example change_of_constant_column :
  match outcome (percentage_change "latency" (window_of t_normal t_abnormal))
  with
  | inr percentage_change => lookup "B" percentage_change = Some NaN
  | inl _ => False
  end.
Proof. vm_compute. reflexivity. Qed.

Example nodes_of_sample_run :
  match outcome (run "latency" t_normal t_abnormal) with
  | inr l => map node l = ["A"; "C"; "B"]
  | inl _ => False
  end.
Proof. vm_compute. reflexivity. Qed.

(** A drop of availability from 1 to 1/2 is a positive percentage
    decrease. *)
Example availability_drop_is_positive :
  pct (1 - (1 # 2)) 1 = Num ((1 - (1 # 2)) / 1 * 100) /\
  (1 - (1 # 2)) / 1 * 100 == 50.
Proof. split; reflexivity. Qed.

(** * Further properties of the ranking *)

(** ** The nodes of the result *)

Section ResultNodes.
Context {Graph Raw : Type}.
Variable reduce_df : Raw -> string -> string -> DataFrame.
Variable set_order : string -> nat.

(** What a successful call with the reference column in the window went
    through. *)
Lemma analyze_scored_inv (graph : Graph) (tn tm ts : string)
    (normal abnormal : Raw) (l : list PotentialRootCause) (w : DataFrame) :
  outcome (functional_analyze_root_causes reduce_df set_order graph tn tm ts
             normal abnormal) = inr l ->
  outcome (aligned_window set_order (reduce_df normal tm ts)
             (reduce_df abnormal tm ts)) = inr w ->
  In petsite_column (columns w) ->
  exists top pd ks_scores,
    outcome (top_columns tm w) = inr top /\
    NoDup top /\
    lookup petsite_column (cols w) = Some pd /\
    outcome (ks_loop w pd top []) = inr ks_scores /\
    map fst ks_scores
    = filter (fun c => negb (String.eqb c petsite_column)) top /\
    l = map (root_cause_of tm) (sorted_by_score ks_scores).
Proof.
  intros H Hw Hin.
  apply analyze_inv in H as [w' [top [Hw' [Htop Hrank]]]].
  rewrite Hw in Hw'. injection Hw' as <-.
  apply rank_by_ks_inv in Hrank
    as [[Hm _] | [_ [pd [sc [Hpd [Hloop ->]]]]]].
  { apply mem_false in Hm. contradiction. }
  assert (Hnd : NoDup top).
  { eapply top_columns_NoDup; [| eassumption].
    destruct (aligned_window_ok _ _ _ _ Hw) as [Cw _].
    rewrite Cw. apply intersection_NoDup. }
  exists top, pd, sc. repeat split; try assumption.
  apply (ks_loop_keys w pd top [] sc); [assumption | intros c _ [] | assumption].
Qed.

Lemma map_node_root_cause (tm : string) (items : Series Q) :
  map node (map (root_cause_of tm) items) = map fst items.
Proof. rewrite map_map. reflexivity. Qed.

Lemma top_columns_length (tm : string) (w : DataFrame) (top : list string) :
  outcome (top_columns tm w) = inr top ->
  List.length top = Nat.min 10 (List.length (columns w)).
Proof.
  intros H. apply top_columns_inv in H as [pc [Hpc ->]].
  pose proof (percentage_change_index _ _ _ Hpc) as Hidx.
  unfold head_index, sort_values_desc.
  rewrite length_map, length_firstn, sort_desc_length.
  rewrite <- Hidx, length_map. reflexivity.
Qed.

Lemma top_columns_all (tm : string) (w : DataFrame) (top : list string) :
  outcome (top_columns tm w) = inr top ->
  (List.length (columns w) <= 10)%nat ->
  Permutation top (columns w).
Proof.
  intros H Hlen. apply top_columns_inv in H as [pc [Hpc ->]].
  pose proof (percentage_change_index _ _ _ Hpc) as Hidx.
  unfold head_index. rewrite firstn_all2.
  - rewrite <- Hidx. apply Permutation_map. apply sort_desc_perm.
  - unfold sort_values_desc. rewrite sort_desc_length.
    rewrite <- (length_map fst), Hidx. assumption.
Qed.

Lemma result_nodes_perm (graph : Graph) (tn tm ts : string)
    (normal abnormal : Raw) (l : list PotentialRootCause) (w : DataFrame)
    (top : list string) :
  outcome (functional_analyze_root_causes reduce_df set_order graph tn tm ts
             normal abnormal) = inr l ->
  outcome (aligned_window set_order (reduce_df normal tm ts)
             (reduce_df abnormal tm ts)) = inr w ->
  outcome (top_columns tm w) = inr top ->
  In petsite_column (columns w) ->
  NoDup top /\
  Permutation (map node l)
    (filter (fun c => negb (String.eqb c petsite_column)) top).
Proof.
  intros H Hw Htop Hin.
  destruct (analyze_scored_inv _ _ _ _ _ _ _ _ H Hw Hin)
    as [top' [pd [sc [Htop' [Hnd [_ [_ [Hkeys ->]]]]]]]].
  rewrite Htop in Htop'. injection Htop' as <-.
  split; [assumption |].
  rewrite map_node_root_cause, <- Hkeys.
  apply Permutation_map. apply sort_desc_perm.
Qed.

(** X1: when the reference column is in the window, the nodes of the
    returned records are the candidate columns other than 'PetSite', each
    exactly once, in some order. *)
Theorem result_nodes_are_candidates (graph : Graph) (tn tm ts : string)
    (normal abnormal : Raw) (l : list PotentialRootCause) (w : DataFrame)
    (top : list string) :
  outcome (functional_analyze_root_causes reduce_df set_order graph tn tm ts
             normal abnormal) = inr l ->
  outcome (aligned_window set_order (reduce_df normal tm ts)
             (reduce_df abnormal tm ts)) = inr w ->
  outcome (top_columns tm w) = inr top ->
  In petsite_column (columns w) ->
  Permutation (map node l)
    (filter (fun c => negb (String.eqb c petsite_column)) top) /\
  NoDup (map node l).
Proof.
  intros H Hw Htop Hin.
  destruct (result_nodes_perm _ _ _ _ _ _ _ _ _ H Hw Htop Hin) as [Hnd Hp].
  split; [assumption |].
  eapply Permutation_NoDup; [symmetry; eassumption |].
  now apply NoDup_filter.
Qed.

(** X2: a call never returns more than 10 records, nor more records than
    the two reduced tables have columns in common. *)
Theorem result_has_at_most_ten_records (graph : Graph) (tn tm ts : string)
    (normal abnormal : Raw) (l : list PotentialRootCause) :
  outcome (functional_analyze_root_causes reduce_df set_order graph tn tm ts
             normal abnormal) = inr l ->
  (List.length l <= 10)%nat /\
  (List.length l
   <= List.length (intersection set_order
                     (columns (reduce_df normal tm ts))
                     (columns (reduce_df abnormal tm ts))))%nat.
Proof.
  intros H. pose proof H as H0.
  apply analyze_inv in H as [w [top [Hw [Htop Hrank]]]].
  apply rank_by_ks_inv in Hrank
    as [[Hm ->] | [Hm [pd [sc [Hpd [Hloop El]]]]]]; [simpl; lia |].
  apply mem_In in Hm.
  destruct (result_nodes_perm _ _ _ _ _ _ _ _ _ H0 Hw Htop Hm) as [_ Hperm].
  apply Permutation_length in Hperm. rewrite length_map in Hperm.
  pose proof (filter_length_le
                (fun c => negb (String.eqb c petsite_column)) top) as Hf.
  pose proof (top_columns_length _ _ _ Htop) as Ht.
  destruct (aligned_window_ok _ _ _ _ Hw) as [Cw _].
  rewrite <- Cw. lia.
Qed.

(** X3: when the two tables have at most 10 columns in common, 'PetSite'
    among them, every other common column gets a record. *)
Theorem every_common_column_is_ranked (graph : Graph) (tn tm ts : string)
    (normal abnormal : Raw) (l : list PotentialRootCause) (c : string) :
  let common := intersection set_order (columns (reduce_df normal tm ts))
                  (columns (reduce_df abnormal tm ts)) in
  outcome (functional_analyze_root_causes reduce_df set_order graph tn tm ts
             normal abnormal) = inr l ->
  (List.length common <= 10)%nat ->
  In petsite_column common ->
  In c common -> c <> petsite_column ->
  exists r, In r l /\ node r = c.
Proof.
  intros common H Hlen Hpet Hc Hne. pose proof H as H0.
  apply analyze_inv in H as [w [top [Hw [Htop _]]]].
  destruct (aligned_window_ok _ _ _ _ Hw) as [Cw _]. fold common in Cw.
  rewrite <- Cw in Hpet, Hc, Hlen.
  destruct (result_nodes_perm _ _ _ _ _ _ _ _ _ H0 Hw Htop Hpet) as [_ Hperm].
  assert (Hin : In c (map node l)).
  { eapply Permutation_in; [symmetry; eassumption |].
    apply filter_In. split.
    - eapply Permutation_in;
        [symmetry; eapply top_columns_all; eassumption | assumption].
    - apply negb_true_iff. now apply String.eqb_neq. }
  apply in_map_iff in Hin as [r [Hr Hin]]. eauto.
Qed.
End ResultNodes.

(** ** The scaled table *)

Lemma column_bounds (x : Q) (rest : list Q) (y : Q) :
  In y (x :: rest) -> qmin_list x rest <= y /\ y <= qmax_list x rest.
Proof.
  intros [<- | Hy]; split.
  - apply qmin_list_le_init.
  - apply qmax_list_ge_init.
  - now apply qmin_list_le.
  - now apply qmax_list_ge.
Qed.

Lemma handle_zeros_pos (range : Q) : 0 < handle_zeros_in_scale range.
Proof.
  unfold handle_zeros_in_scale.
  destruct (Qle_bool (10 * float_eps) range) eqn:E; [| reflexivity].
  apply Qle_bool_iff in E.
  eapply Qlt_le_trans; [| eassumption]. reflexivity.
Qed.

Lemma handle_zeros_ge (range : Q) :
  0 <= range -> range <= handle_zeros_in_scale range.
Proof.
  intros Hr. unfold handle_zeros_in_scale.
  destruct (Qle_bool (10 * float_eps) range) eqn:E; [apply Qle_refl |].
  assert (H : ~ 10 * float_eps <= range).
  { intros H. apply Qle_bool_iff in H. congruence. }
  apply Qnot_le_lt in H. apply Qlt_le_weak.
  eapply Qlt_le_trans; [eassumption |]. discriminate.
Qed.

Lemma scaled_value (y m h : Q) :
  ~ h == 0 -> y * (1 / h) + (0 - m * (1 / h)) == (y - m) / h.
Proof. intros Hh. field. assumption. Qed.

Lemma scale_column_in_unit (v : list Q) : Forall in_unit (scale_column v).
Proof.
  destruct v as [| x rest]; [constructor |].
  unfold scale_column. rewrite Forall_map, Forall_forall. intros y Hy.
  destruct (column_bounds x rest y Hy) as [Hmin Hmax].
  set (mn := qmin_list x rest) in *. set (mx := qmax_list x rest) in *.
  pose proof (handle_zeros_pos (mx - mn)) as Hpos.
  assert (Hge : mx - mn <= handle_zeros_in_scale (mx - mn))
    by (apply handle_zeros_ge; lra).
  set (h := handle_zeros_in_scale (mx - mn)) in *.
  assert (Hne : ~ h == 0) by lra.
  unfold in_unit. rewrite (scaled_value y mn h Hne). split.
  - apply Qle_shift_div_l; [assumption | lra].
  - apply Qle_shift_div_r; [assumption | lra].
Qed.

Lemma skipn_In {V} (k : nat) (l : list V) (x : V) :
  In x (skipn k l) -> In x l.
Proof.
  intros H. rewrite <- (firstn_skipn k l). apply in_or_app. now right.
Qed.

Section ScaledWindow.
Variable set_order : string -> nat.

End ScaledWindow.

(** Scaling keeps the order of the values of a column: of two entries
    the smaller one is mapped to the smaller scaled value. *)
Theorem scale_column_keeps_order (v : list Q) (i j : nat) (y z : Q) :
  nth_error v i = Some y ->
  nth_error v j = Some z ->
  y <= z ->
  exists y' z',
    nth_error (scale_column v) i = Some y' /\
    nth_error (scale_column v) j = Some z' /\
    y' <= z'.
Proof.
  intros Hi Hj Hyz.
  destruct v as [| x rest]; [destruct i; discriminate |].
  unfold scale_column.
  set (mn := qmin_list x rest). set (mx := qmax_list x rest).
  pose proof (handle_zeros_pos (mx - mn)) as Hpos.
  set (h := handle_zeros_in_scale (mx - mn)) in *.
  assert (Hne : ~ h == 0) by lra.
  exists (y * (1 / h) + (0 - mn * (1 / h))),
         (z * (1 / h) + (0 - mn * (1 / h))).
  rewrite !nth_error_map, Hi, Hj. repeat split.
  rewrite !(scaled_value _ mn h Hne).
  apply Qle_shift_div_l; [assumption |].
  unfold Qdiv. rewrite <- Qmult_assoc, (Qmult_comm (/ h)), Qmult_inv_r by assumption.
  lra.
Qed.

(** ** Bounds of the statistic *)

Lemma searchsorted_right_le (data : list Q) (x : Q) :
  (searchsorted_right data x <= List.length data)%nat.
Proof.
  induction data as [| y rest IH]; simpl; [lia |].
  destruct (Qle_bool y x); lia.
Qed.

Lemma fraction_in_unit (s n : nat) :
  (s <= n)%nat ->
  in_unit (inject_Z (Z.of_nat s) / inject_Z (Z.of_nat n)).
Proof.
  intros Hs. unfold in_unit. destruct n as [| n].
  - assert (s = O) by lia. subst. split; discriminate.
  - assert (Hn : 0 < inject_Z (Z.of_nat (S n))).
    { rewrite <- (Zlt_Qlt 0). lia. }
    split.
    + apply Qle_shift_div_l; [assumption |]. rewrite Qmult_0_l.
      rewrite <- (Zle_Qle 0). lia.
    + apply Qle_shift_div_r; [assumption |]. rewrite Qmult_1_l.
      rewrite <- Zle_Qle. lia.
Qed.

Lemma qmax_list_lub (l : list Q) (x b : Q) :
  x <= b -> (forall y, In y l -> y <= b) -> qmax_list x l <= b.
Proof.
  unfold qmax_list. revert x.
  induction l as [| a l IH]; simpl; intros x Hx Hl; [assumption |].
  apply IH; [apply Q.max_lub; auto | auto].
Qed.

Lemma qmin_list_glb (l : list Q) (x b : Q) :
  b <= x -> (forall y, In y l -> b <= y) -> b <= qmin_list x l.
Proof.
  unfold qmin_list. revert x.
  induction l as [| a l IH]; simpl; intros x Hx Hl; [assumption |].
  apply IH; [apply Q.min_glb; auto | auto].
Qed.

Lemma np_sort_length (v : list Q) : List.length (np_sort v) = List.length v.
Proof. apply sort_desc_length. Qed.

Lemma ks_statistic_le_1 (data1 data2 : list Q) : ks_statistic data1 data2 <= 1.
Proof.
  unfold ks_statistic. cbv zeta.
  match goal with
  | |- context [match ?m with [] => _ | _ :: _ => _ end] => set (cdd := m)
  end.
  assert (Hall : forall d, In d cdd -> d <= 1).
  { intros d Hd. subst cdd. apply in_map_iff in Hd as [x [<- _]].
    destruct (fraction_in_unit (searchsorted_right (np_sort data1) x)
                (List.length (np_sort data1))
                (searchsorted_right_le _ _)) as [_ H1].
    destruct (fraction_in_unit (searchsorted_right (np_sort data2) x)
                (List.length (np_sort data2))
                (searchsorted_right_le _ _)) as [H2 _].
    lra. }
  destruct cdd as [| d rest]; [discriminate |].
  apply Q.max_lub.
  - unfold clip. apply Q.le_min_r.
  - apply qmax_list_lub; [apply Hall; now left |].
    intros y Hy. apply Hall. now right.
Qed.

Lemma ks_statistic_same (data : list Q) : ks_statistic data data == 0.
Proof.
  apply Qle_antisym; [| apply ks_statistic_nonneg].
  unfold ks_statistic. cbv zeta.
  match goal with
  | |- context [match ?m with [] => _ | _ :: _ => _ end] => set (cdd := m)
  end.
  assert (Hall : forall d, In d cdd -> d == 0).
  { intros d Hd. subst cdd. apply in_map_iff in Hd as [x [<- _]]. ring. }
  destruct cdd as [| d rest]; [apply Qle_refl |].
  apply Q.max_lub.
  - unfold clip. eapply Qle_trans; [apply Q.le_min_l |].
    apply Q.max_lub; [| apply Qle_refl].
    assert (H : 0 <= qmin_list d rest).
    { apply qmin_list_glb.
      - rewrite (Hall d) by now left. apply Qle_refl.
      - intros y Hy. rewrite (Hall y) by now right. apply Qle_refl. }
    lra.
  - apply qmax_list_lub.
    + rewrite (Hall d) by now left. apply Qle_refl.
    + intros y Hy. rewrite (Hall y) by now right. apply Qle_refl.
Qed.

Lemma ks_score_antitone (d1 d2 : Q) :
  0 <= d1 -> 0 <= d2 -> (ks_score d2 <= ks_score d1 <-> d1 <= d2).
Proof.
  intros H1 H2. unfold ks_score.
  assert (P1 : 0 < 1 + d1) by lra. assert (P2 : 0 < 1 + d2) by lra.
  assert (E : 1 / (1 + d1) - 1 / (1 + d2)
              == (d2 - d1) / ((1 + d1) * (1 + d2))).
  { field. split; lra. }
  assert (P : 0 < (1 + d1) * (1 + d2)).
  { apply Qmult_lt_0_compat; assumption. }
  split; intros H.
  - assert (H' : 0 <= (d2 - d1) / ((1 + d1) * (1 + d2))) by (rewrite <- E; lra).
    assert (H'' : 0 <= (d2 - d1) / ((1 + d1) * (1 + d2))
                        * ((1 + d1) * (1 + d2))).
    { apply Qmult_le_0_compat; [assumption | lra]. }
    rewrite Qmult_comm, Qmult_div_r in H'' by lra. lra.
  - assert (H' : 0 <= (d2 - d1) / ((1 + d1) * (1 + d2))).
    { apply Qle_shift_div_l; [assumption | lra]. }
    rewrite <- E in H'. lra.
Qed.

(** ** Scores of the returned records *)

Lemma Sorted_impl_in {V} (R S : V -> V -> Prop) (l : list V) :
  (forall x y, In x l -> In y l -> R x y -> S x y) ->
  Sorted R l -> Sorted S l.
Proof.
  intros HRS Hs. induction Hs as [| x l Hs IH Hhd]; constructor.
  - apply IH. intros u v Hu Hv. apply HRS; now right.
  - destruct Hhd as [| y l' Hxy]; constructor.
    apply HRS; [now left | right; now left | assumption].
Qed.

Section RecordScores.
Context {Graph Raw : Type}.
Variable reduce_df : Raw -> string -> string -> DataFrame.
Variable set_order : string -> nat.

(** The score of a returned record is the inverted statistic of its column
    in the window. *)
Lemma record_score_inv (graph : Graph) (tn tm ts : string)
    (normal abnormal : Raw) (l : list PotentialRootCause)
    (r : PotentialRootCause) :
  outcome (functional_analyze_root_causes reduce_df set_order graph tn tm ts
             normal abnormal) = inr l ->
  In r l ->
  exists w,
    outcome (aligned_window set_order (reduce_df normal tm ts)
               (reduce_df abnormal tm ts)) = inr w /\
    score r = ks_score (statistic_of w (node r)).
Proof.
  intros H Hr.
  apply analyze_inv in H as [w [top [Hw [Htop Hrank]]]].
  apply rank_by_ks_inv in Hrank as [[_ ->] | [_ [pd [sc [Hpd [Hloop ->]]]]]];
    [destruct Hr |].
  apply in_map_iff in Hr as [[k v] [<- Hin]].
  unfold sorted_by_score in Hin. apply sort_desc_in in Hin.
  destruct (ks_loop_inv _ _ _ _ _ Hloop _ _ Hin)
    as [[] | [_ [_ [cd [Hcd ->]]]]].
  exists w. split; [assumption |].
  unfold statistic_of. simpl. rewrite Hpd, Hcd. reflexivity.
Qed.

(** X5: no returned score is below 1/2: the statistic never exceeds 1. *)
Theorem scores_are_at_least_one_half (graph : Graph) (tn tm ts : string)
    (normal abnormal : Raw) (l : list PotentialRootCause)
    (r : PotentialRootCause) :
  outcome (functional_analyze_root_causes reduce_df set_order graph tn tm ts
             normal abnormal) = inr l ->
  In r l ->
  1 # 2 <= score r.
Proof.
  intros H Hr.
  destruct (record_score_inv _ _ _ _ _ _ _ _ H Hr) as [w [_ ->]].
  unfold statistic_of.
  assert (Hb : forall d, 0 <= d -> d <= 1 -> 1 # 2 <= ks_score d).
  { intros d H0 H1. unfold ks_score.
    apply Qle_shift_div_l; lra. }
  destruct (lookup petsite_column (cols w)) as [pd |];
    [destruct (lookup (node r) (cols w)) as [cd |] |];
    try (apply Hb; lra).
  apply Hb; [apply ks_statistic_nonneg | apply ks_statistic_le_1].
Qed.

(** X6: a column whose values over the window repeat those of 'PetSite'
    gets the score 1. *)
Theorem twin_of_reference_scores_one (graph : Graph) (tn tm ts : string)
    (normal abnormal : Raw) (l : list PotentialRootCause)
    (r : PotentialRootCause) (w : DataFrame) (petsite_data : list Q) :
  outcome (functional_analyze_root_causes reduce_df set_order graph tn tm ts
             normal abnormal) = inr l ->
  In r l ->
  outcome (aligned_window set_order (reduce_df normal tm ts)
             (reduce_df abnormal tm ts)) = inr w ->
  lookup petsite_column (cols w) = Some petsite_data ->
  lookup (node r) (cols w) = Some petsite_data ->
  score r == 1.
Proof.
  intros H Hr Hw Hpd Hcd.
  destruct (record_score_inv _ _ _ _ _ _ _ _ H Hr) as [w' [Hw' ->]].
  rewrite Hw in Hw'. injection Hw' as <-.
  unfold statistic_of. rewrite Hpd, Hcd.
  apply ks_score_bounds; [apply ks_statistic_nonneg | apply ks_statistic_same].
Qed.

(** X7: the records come in ascending order of the statistic: a column
    closer to 'PetSite' is never listed after a more distant one. *)
Theorem result_is_sorted_by_ascending_statistic (graph : Graph)
    (tn tm ts : string) (normal abnormal : Raw)
    (l : list PotentialRootCause) (w : DataFrame) :
  outcome (functional_analyze_root_causes reduce_df set_order graph tn tm ts
             normal abnormal) = inr l ->
  outcome (aligned_window set_order (reduce_df normal tm ts)
             (reduce_df abnormal tm ts)) = inr w ->
  Sorted (fun a b => statistic_of w (node a) <= statistic_of w (node b)) l.
Proof.
  intros H Hw.
  assert (Hscore : forall r, In r l ->
            score r = ks_score (statistic_of w (node r))).
  { intros r Hr.
    destruct (record_score_inv _ _ _ _ _ _ _ _ H Hr) as [w' [Hw' E]].
    rewrite Hw in Hw'. injection Hw' as <-. exact E. }
  assert (Hnn : forall c, 0 <= statistic_of w c).
  { intros c. unfold statistic_of.
    destruct (lookup petsite_column (cols w));
      [destruct (lookup c (cols w)) |];
      try apply Qle_refl. apply ks_statistic_nonneg. }
  apply Sorted_impl_in with (R := fun a b => score b <= score a).
  - intros a b Ha Hb Hab. rewrite (Hscore a Ha), (Hscore b Hb) in Hab.
    apply (ks_score_antitone (statistic_of w (node a))
             (statistic_of w (node b)) (Hnn _) (Hnn _)). exact Hab.
  - apply analyze_inv in H as [w' [top [_ [_ Hrank]]]].
    apply rank_by_ks_inv in Hrank as [[_ ->] | [_ [pd [sc [_ [_ ->]]]]]];
      [constructor |].
    apply Sorted_map. simpl. apply sorted_by_score_sorted.
Qed.
End RecordScores.

(** ** Content of the window *)

Lemma lookup_map_entry {V W} (f : string * V -> W) (k : string) (s : Series V) :
  lookup k (map (fun e => (fst e, f e)) s)
  = match lookup k s with
    | Some v => Some (f (k, v))
    | None => None
    end.
Proof.
  induction s as [| [k' v'] s IH]; simpl; [reflexivity |].
  destruct (String.eqb k k') eqn:E; [| assumption].
  apply String.eqb_eq in E. now subst.
Qed.

Lemma select_lookup (s sel : Series (list Q)) (labels : list string)
    (c : string) :
  outcome (select s labels) = inr sel ->
  In c labels -> lookup c sel = lookup c s.
Proof.
  revert sel. induction labels as [| c0 rest IH]; simpl; intros sel H Hc;
    [destruct Hc |].
  destruct (lookup c0 s) as [v |] eqn:Hl; [| discriminate].
  monad_inv H. injection H as <-. simpl.
  destruct (String.eqb c c0) eqn:E.
  - apply String.eqb_eq in E. subst. now rewrite Hl.
  - apply IH; [assumption |]. destruct Hc as [-> | Hc]; [| assumption].
    rewrite String.eqb_refl in E. discriminate.
Qed.

Lemma loc_columns_lookup (df df' : DataFrame) (labels : list string)
    (c : string) :
  outcome (loc_columns df labels) = inr df' ->
  In c labels -> lookup c (cols df') = lookup c (cols df).
Proof.
  unfold loc_columns. intros H Hc. monad_inv H. injection H as <-.
  simpl. eapply select_lookup; eassumption.
Qed.

Section WindowContent.
Variable set_order : string -> nat.

Lemma window_column_lookup (n a w : DataFrame) (c : string) :
  outcome (aligned_window set_order n a) = inr w ->
  In c (columns w) ->
  exists vn va,
    lookup c (cols n) = Some vn /\
    lookup c (cols a) = Some va /\
    lookup c (cols w) = Some (lastn 5 (scale_column (vn ++ va))).
Proof.
  intros H Hc.
  destruct (aligned_window_ok _ _ _ _ H) as [Cw _].
  rewrite Cw in Hc. pose proof Hc as Hc'.
  apply intersection_In in Hc' as [Hn Ha].
  destruct (lookup_key c (cols n) Hn) as [vn Hvn].
  destruct (lookup_key c (cols a) Ha) as [va Hva].
  exists vn, va. split; [assumption |]. split; [assumption |].
  destruct (aligned_window_run set_order n a) as [n' [a' [Ln [La Hrun]]]].
  rewrite Hrun in H. unfold outcome in H; simpl in H.
  destruct (_ || _)%bool; [discriminate |]. injection H as <-.
  unfold window_of, tail, scaled_cols, concat. simpl cols.
  rewrite !lookup_map_entry.
  rewrite (loc_columns_lookup _ _ _ _ Ln Hc), Hvn. simpl.
  rewrite (loc_columns_lookup _ _ _ _ La Hc), Hva. reflexivity.
Qed.

(** X8: a column of the window holds the last 5 scaled entries of the
    normal column followed by the abnormal column: the rows of the normal
    table come first, and the scaling is computed over the combined column,
    not per table. *)
Theorem window_column_is_scaled_combined_tail (n a w : DataFrame)
    (c : string) :
  outcome (aligned_window set_order n a) = inr w ->
  In c (columns w) ->
  exists vn va,
    lookup c (cols n) = Some vn /\
    lookup c (cols a) = Some va /\
    lookup c (cols w) = Some (lastn 5 (scale_column (vn ++ va))).
Proof. intros H Hc. exact (window_column_lookup n a w c H Hc). Qed.

(** X9: on well-formed tables the window has the common columns of the
    two tables, min(5, rows of both tables) rows, and one entry per row in
    every column: with fewer than 5 combined rows all rows are used. *)
Theorem window_has_common_columns_and_last_rows (n a w : DataFrame) :
  wf_df n -> wf_df a ->
  outcome (aligned_window set_order n a) = inr w ->
  columns w = intersection set_order (columns n) (columns a) /\
  nrows w = Nat.min 5 (nrows n + nrows a) /\
  (0 < nrows w)%nat /\
  forall label v, In (label, v) (cols w) -> List.length v = nrows w.
Proof.
  intros Wn Wa H.
  destruct (aligned_window_ok _ _ _ _ H) as [Cw [Rw [Hpos _]]].
  destruct (aligned_window_wf _ _ _ _ Wn Wa H) as [_ Hf].
  repeat split; try assumption; [lia |].
  intros label v Hin. rewrite Forall_forall in Hf. apply (Hf _ Hin).
Qed.

(** X10: the column aligner prints nothing exactly when the two tables
    have the same set of columns. *)
Theorem aligner_is_silent_iff_same_columns (n a : DataFrame) :
  stdout (align_columns set_order n a) = [] <->
  (forall c, In c (columns n) <-> In c (columns a)).
Proof.
  destruct (align_columns_run set_order n a) as [n' [a' [Hrun _]]].
  rewrite Hrun. unfold stdout; simpl fst. unfold alignment_diagnostics.
  pose proof (difference_In set_order (columns n) (columns a)) as D1.
  pose proof (difference_In set_order (columns a) (columns n)) as D2.
  destruct (difference set_order (columns n) (columns a)) as [| x1 d1];
    destruct (difference set_order (columns a) (columns n)) as [| x2 d2];
    simpl; split; intros H; try discriminate; try reflexivity.
  - intros c. split; intros Hc.
    + destruct (in_dec string_dec c (columns a)) as [|Hn]; [assumption |].
      destruct (proj2 (D1 c) (conj Hc Hn)).
    + destruct (in_dec string_dec c (columns n)) as [|Hn]; [assumption |].
      destruct (proj2 (D2 c) (conj Hc Hn)).
  - exfalso. destruct (proj1 (D2 x2) (or_introl eq_refl)) as [H1 H2].
    apply H2, H, H1.
  - exfalso. destruct (proj1 (D1 x1) (or_introl eq_refl)) as [H1 H2].
    apply H2, H, H1.
  - exfalso. destruct (proj1 (D1 x1) (or_introl eq_refl)) as [H1 H2].
    apply H2, H, H1.
Qed.
End WindowContent.

(** ** Exceptions and output of the whole call *)

Lemma rank_by_ks_run (tm : string) (w : DataFrame) (top : list string) :
  wf_df w -> (0 < nrows w)%nat ->
  (forall c, In c top -> In c (columns w)) ->
  exists l,
    rank_by_ks tm w top
    = (if mem petsite_column (columns w) then [] else [reference_diagnostic],
       inr l).
Proof.
  intros [_ Ww] Hn Htop.
  assert (Hdata : forall c, In c (columns w) ->
            exists cd, lookup c (cols w) = Some cd /\ cd <> []).
  { intros c Hc. destruct (lookup_key c (cols w) Hc) as [cd Hcd].
    exists cd. split; [assumption |].
    apply lookup_In in Hcd. rewrite Forall_forall in Ww.
    apply Ww in Hcd. simpl in Hcd. intros ->. simpl in Hcd. lia. }
  unfold rank_by_ks.
  destruct (mem petsite_column (columns w)) eqn:Hm; simpl negb; cbv iota.
  - apply mem_In in Hm. destruct (Hdata _ Hm) as [pd [Hpd Hne]].
    unfold getitem. rewrite Hpd.
    destruct (ks_loop_total w pd top [] Hne) as [res Hres].
    { intros c Hc _. apply Hdata. auto. }
    cbv [bind ret]. rewrite Hres. eexists; reflexivity.
  - eexists; reflexivity.
Qed.

Section CallOutcome.
Context {Graph Raw : Type}.
Variable reduce_df : Raw -> string -> string -> DataFrame.
Variable set_order : string -> nat.

Lemma analyze_run_nonempty (graph : Graph) (tn tm ts : string)
    (normal abnormal : Raw) :
  let n := reduce_df normal tm ts in
  let a := reduce_df abnormal tm ts in
  wf_df n -> wf_df a ->
  (0 < nrows n + nrows a)%nat ->
  intersection set_order (columns n) (columns a) <> [] ->
  exists l,
    functional_analyze_root_causes reduce_df set_order graph tn tm ts
      normal abnormal
    = (alignment_diagnostics set_order n a
       ++ (if mem petsite_column (intersection set_order (columns n) (columns a))
           then [] else [reference_diagnostic]),
       inr l).
Proof.
  intros n a Wn Wa Hrows Hcols.
  destruct (aligned_window_total set_order n a Hrows Hcols) as [w Hw].
  destruct (aligned_window_ok _ _ _ _ Hw) as [Cw [Rw [_ [_ Hrun]]]].
  pose proof (aligned_window_wf _ _ _ _ Wn Wa Hw) as Ww.
  assert (Hn : (0 < nrows w)%nat) by lia.
  assert (Htop : exists top, outcome (top_columns tm w) = inr top).
  { unfold top_columns. rewrite percentage_change_run by assumption.
    eexists; reflexivity. }
  destruct Htop as [top Htop].
  rewrite (analyze_run reduce_df set_order graph tn tm ts normal abnormal
             w top _ Hrun Htop).
  destruct (rank_by_ks_run tm w top Ww Hn) as [l Hl].
  { intros c Hc. eapply top_columns_In; eassumption. }
  exists l. rewrite Hl. unfold stdout, outcome; simpl. now rewrite Cw.
Qed.

(** X11: on well-formed tables the only exception a call can end in is the
    scaler's [ValueError], and it does so exactly when the combined table
    has no row or the two tables have no column in common. *)
Theorem call_fails_exactly_on_empty_tables (graph : Graph)
    (tn tm ts : string) (normal abnormal : Raw) :
  let n := reduce_df normal tm ts in
  let a := reduce_df abnormal tm ts in
  wf_df n -> wf_df a ->
  (forall e,
     outcome (functional_analyze_root_causes reduce_df set_order graph
                tn tm ts normal abnormal) = inl e -> e = ValueError) /\
  (outcome (functional_analyze_root_causes reduce_df set_order graph
              tn tm ts normal abnormal) = inl ValueError
   <-> (nrows n + nrows a = 0)%nat
       \/ intersection set_order (columns n) (columns a) = []).
Proof.
  intros n a Wn Wa.
  destruct (Nat.eq_dec (nrows n + nrows a) 0) as [Hr | Hr].
  - assert (E : outcome (functional_analyze_root_causes reduce_df set_order
                  graph tn tm ts normal abnormal) = inl ValueError).
    { apply analyze_raises.
      destruct (aligned_window_run set_order n a) as [n' [a' [_ [_ Hrun]]]].
      fold n a. rewrite Hrun.
      apply Nat.eqb_eq in Hr. rewrite Hr. reflexivity. }
    rewrite E. split; [intros e [= <-]; reflexivity | tauto].
  - destruct (intersection set_order (columns n) (columns a))
      as [| c0 cs] eqn:Hc.
    + assert (E : outcome (functional_analyze_root_causes reduce_df set_order
                    graph tn tm ts normal abnormal) = inl ValueError).
      { apply analyze_raises.
        destruct (aligned_window_run set_order n a) as [n' [a' [_ [_ Hrun]]]].
        fold n a. rewrite Hrun, Hc, orb_true_r. reflexivity. }
      rewrite E. split; [intros e [= <-]; reflexivity | tauto].
    + destruct (analyze_run_nonempty graph tn tm ts normal abnormal Wn Wa)
        as [l Hl]; [fold n a; lia | fold n a; rewrite Hc; discriminate |].
      rewrite Hl. unfold outcome; simpl. split.
      * intros e He. discriminate.
      * split; [discriminate | intros [H | H]; [lia | discriminate]].
Qed.

(** X12: on well-formed tables with a combined row and 'PetSite' in both,
    the call returns a list and prints the aligner's lines only. *)
Theorem call_with_reference_prints_alignment_only (graph : Graph)
    (tn tm ts : string) (normal abnormal : Raw) :
  let n := reduce_df normal tm ts in
  let a := reduce_df abnormal tm ts in
  wf_df n -> wf_df a ->
  (0 < nrows n + nrows a)%nat ->
  In petsite_column (columns n) -> In petsite_column (columns a) ->
  exists l,
    functional_analyze_root_causes reduce_df set_order graph tn tm ts
      normal abnormal
    = (alignment_diagnostics set_order n a, inr l).
Proof.
  intros n a Wn Wa Hrows Hn Ha.
  assert (Hin : In petsite_column
                  (intersection set_order (columns n) (columns a)))
    by (apply intersection_In; auto).
  destruct (analyze_run_nonempty graph tn tm ts normal abnormal Wn Wa Hrows)
    as [l Hl].
  { fold n a. intros E. rewrite E in Hin. destruct Hin. }
  exists l. rewrite Hl. fold n a.
  apply mem_In in Hin. rewrite Hin, app_nil_r. reflexivity.
Qed.
End CallOutcome.

(** ** The stub and the random generator *)

Section HollowDraws.
Context {Graph Raw Rng : Type}.
Variable reduce_df : Raw -> string -> string -> DataFrame.
Variable impute_df : DataFrame -> string -> DataFrame.
Variable np_random_rand : Rng -> Q * Rng.

Lemma simulate_draws (k : nat) (tn tm : string)
    (acc : list PotentialRootCause) (rng : Rng) :
  simulate np_random_rand k tn tm acc rng
  = (acc ++ map (mkPotentialRootCause tn tm)
              (fst (draws np_random_rand k rng)),
     snd (draws np_random_rand k rng)).
Proof.
  revert acc rng. induction k as [| k IH]; simpl; intros acc rng.
  - now rewrite app_nil_r.
  - destruct (np_random_rand rng) as [x rng'].
    rewrite IH. destruct (draws np_random_rand k rng') as [xs rng''].
    simpl. now rewrite <- app_assoc.
Qed.

(** X13: the scores of the stub's records are the successive outputs of
    the random generator, in the order drawn, and the generator is left in
    the state after exactly that many draws. *)
Theorem stub_scores_are_successive_draws (root_cause_top_k : Z)
    (imputation_method : string) (graph : Graph) (tn tm ts : string)
    (normal abnormal : Raw) (rng : Rng) :
  let k := Z.to_nat root_cause_top_k in
  let result := analyze_root_causes reduce_df impute_df np_random_rand
                  root_cause_top_k imputation_method graph tn tm ts
                  normal abnormal rng in
  map score (fst result) = fst (draws np_random_rand k rng) /\
  snd result = snd (draws np_random_rand k rng).
Proof.
  cbv zeta. unfold analyze_root_causes. rewrite simulate_draws. simpl.
  split; [| reflexivity].
  rewrite map_map. simpl. apply map_id.
Qed.

(** X14: with [root_cause_top_k] zero or negative the stub returns no
    record and draws no random number. *)
Theorem stub_with_nonpositive_top_k_is_empty (root_cause_top_k : Z)
    (imputation_method : string) (graph : Graph) (tn tm ts : string)
    (normal abnormal : Raw) (rng : Rng) :
  (root_cause_top_k <= 0)%Z ->
  analyze_root_causes reduce_df impute_df np_random_rand
    root_cause_top_k imputation_method graph tn tm ts normal abnormal rng
  = ([], rng).
Proof.
  intros Hk. unfold analyze_root_causes.
  replace (Z.to_nat root_cause_top_k) with O by lia. reflexivity.
Qed.
End HollowDraws.

(** ** Output of a failing call *)

Section FailingCall.
Context {Graph Raw : Type}.
Variable reduce_df : Raw -> string -> string -> DataFrame.
Variable set_order : string -> nat.

(** X15: when the combined table has no row or the two tables share no
    column, the call prints the aligner's lines and then ends in the
    scaler's [ValueError]; the reference-column diagnostic is not
    reached. *)
Theorem failing_call_prints_alignment_first (graph : Graph)
    (tn tm ts : string) (normal abnormal : Raw) :
  let n := reduce_df normal tm ts in
  let a := reduce_df abnormal tm ts in
  (nrows n + nrows a = 0)%nat
  \/ intersection set_order (columns n) (columns a) = [] ->
  functional_analyze_root_causes reduce_df set_order graph tn tm ts
    normal abnormal
  = (alignment_diagnostics set_order n a, inl ValueError).
Proof.
  intros n a H. unfold functional_analyze_root_causes.
  destruct (aligned_window_run set_order n a) as [n' [a' [_ [_ Hrun]]]].
  fold n a. rewrite Hrun.
  replace (_ || _)%bool with true; [reflexivity |].
  symmetry. apply orb_true_iff.
  destruct H as [H | H]; [left; now apply Nat.eqb_eq | right; now rewrite H].
Qed.
End FailingCall.

(** ** Sign of the percentage change *)

Lemma last_In {V} (l : list V) (d : V) : l <> [] -> In (last l d) l.
Proof.
  induction l as [| x l IH]; [congruence |]. intros _.
  destruct l as [| y l]; [now left |].
  right. apply IH. discriminate.
Qed.

Lemma hd_last_nonneg (v : list Q) :
  Forall in_unit v -> 0 <= hd 0 v /\ 0 <= last v 0.
Proof.
  intros Hunit. destruct v as [| y v']; [split; apply Qle_refl |].
  rewrite Forall_forall in Hunit. split.
  - apply (Hunit y). now left.
  - apply (Hunit (last (y :: v') 0)). apply last_In. discriminate.
Qed.

Lemma pct_rise_not_minus_infinity (first last : Q) :
  0 <= first -> 0 <= last -> pct (last - first) first <> NInf.
Proof.
  intros Hf Hl. unfold pct, xdiv.
  destruct (Qeq_bool first 0) eqn:E0; [| discriminate].
  destruct (Qeq_bool (last - first) 0) eqn:E1; [discriminate |].
  destruct (Qle_bool 0 (last - first)) eqn:E2; [discriminate |].
  exfalso. apply Qeq_bool_iff in E0.
  assert (H : 0 <= last - first) by lra.
  apply Qle_bool_iff in H. congruence.
Qed.

Lemma pct_drop_not_plus_infinity (first last : Q) :
  0 <= first -> 0 <= last -> pct (first - last) first <> PInf.
Proof.
  intros Hf Hl. unfold pct, xdiv.
  destruct (Qeq_bool first 0) eqn:E0; [| discriminate].
  destruct (Qeq_bool (first - last) 0) eqn:E1; [discriminate |].
  destruct (Qle_bool 0 (first - last)) eqn:E2; [| discriminate].
  exfalso. apply Qeq_bool_iff in E0. apply Qle_bool_iff in E2.
  assert (E : first - last == 0) by lra.
  apply Qeq_bool_iff in E. congruence.
Qed.

Section ChangeSign.
Variable set_order : string -> nat.

Lemma window_column_in_unit (n a w : DataFrame) (label : string)
    (v : list Q) :
  outcome (aligned_window set_order n a) = inr w ->
  In (label, v) (cols w) ->
  Forall in_unit v.
Proof.
  intros H Hin.
  destruct (aligned_window_run set_order n a) as [n' [a' [_ [_ Hrun]]]].
  rewrite Hrun in H. unfold outcome in H; simpl in H.
  destruct (_ || _)%bool; [discriminate |]. injection H as <-.
  unfold window_of, tail, scaled_cols in Hin. cbn [cols] in Hin.
  rewrite map_map in Hin. apply in_map_iff in Hin as [c [E _]].
  cbn [fst snd] in E. injection E as _ <-.
  apply Forall_forall. intros y Hy. apply skipn_In in Hy.
  pose proof (scale_column_in_unit (snd c)) as Hall.
  rewrite Forall_forall in Hall. now apply Hall.
Qed.

(** X16: the change of a column of the window is never minus infinity for
    a metric other than "availability", and never plus infinity for
    "availability": the window values are not negative, so a zero first
    value gives an infinity of one sign only, or NaN. *)
Theorem change_infinity_has_one_sign (n a w : DataFrame)
    (target_metric : string) (pc : Series xfloat) (c : string) (x : xfloat) :
  outcome (aligned_window set_order n a) = inr w ->
  outcome (percentage_change target_metric w) = inr pc ->
  In (c, x) pc ->
  if String.eqb target_metric "availability" then x <> PInf else x <> NInf.
Proof.
  intros Hw Hpc Hin.
  destruct (aligned_window_ok _ _ _ _ Hw) as [_ [Rw [Hpos _]]].
  rewrite percentage_change_run in Hpc by lia.
  unfold outcome in Hpc. cbn [snd] in Hpc. injection Hpc as <-.
  apply in_map_iff in Hin as [[k v] [E Hkv]]. cbn [fst snd] in E.
  pose proof (window_column_in_unit _ _ _ _ _ Hw Hkv) as Hunit.
  destruct (hd_last_nonneg v Hunit) as [Hhd Hlast].
  destruct (String.eqb target_metric "availability");
    injection E as _ <-.
  - now apply pct_drop_not_plus_infinity.
  - now apply pct_rise_not_minus_infinity.
Qed.
End ChangeSign.

(** ** Records in closed form, and the enumeration order of sets *)

Section ClosedForm.
Context {Graph Raw : Type}.
Variable reduce_df : Raw -> string -> string -> DataFrame.

Lemma statistic_of_window (set_order : string -> nat) (n a w : DataFrame)
    (c : string) :
  outcome (aligned_window set_order n a) = inr w ->
  In petsite_column (columns w) -> In c (columns w) ->
  statistic_of w c
  = ks_statistic (combined_tail n a petsite_column) (combined_tail n a c).
Proof.
  intros Hw Hp Hc.
  destruct (window_column_lookup set_order n a w _ Hw Hp)
    as [pn [pa [Hpn [Hpa Hpw]]]].
  destruct (window_column_lookup set_order n a w _ Hw Hc)
    as [vn [va [Hvn [Hva Hvw]]]].
  unfold statistic_of, combined_tail.
  rewrite Hpw, Hvw, Hpn, Hpa, Hvn, Hva. reflexivity.
Qed.

Lemma record_closed_form (set_order : string -> nat) (graph : Graph)
    (tn tm ts : string) (normal abnormal : Raw)
    (l : list PotentialRootCause) (r : PotentialRootCause) :
  outcome (functional_analyze_root_causes reduce_df set_order graph tn tm ts
             normal abnormal) = inr l ->
  In r l ->
  r = record_of (reduce_df normal tm ts) (reduce_df abnormal tm ts) tm (node r)
  /\ In (node r) (intersection set_order
                    (columns (reduce_df normal tm ts))
                    (columns (reduce_df abnormal tm ts)))
  /\ node r <> petsite_column.
Proof.
  intros H Hr. pose proof H as H0.
  apply analyze_inv in H as [w [top [Hw [Htop Hrank]]]].
  destruct (aligned_window_ok _ _ _ _ Hw) as [Cw _].
  apply rank_by_ks_inv in Hrank as [[_ ->] | [Hm [pd [sc [Hpd [Hloop ->]]]]]];
    [destruct Hr |].
  apply mem_In in Hm.
  apply in_map_iff in Hr as [[k v] [<- Hin]].
  unfold sorted_by_score in Hin. apply sort_desc_in in Hin.
  destruct (ks_loop_inv _ _ _ _ _ Hloop _ _ Hin)
    as [[] | [Hk [Hne [cd [Hcd ->]]]]].
  pose proof (top_columns_In _ _ _ _ Htop Hk) as Hcol.
  unfold root_cause_of, record_of. cbn [fst snd node].
  split; [| split; [now rewrite <- Cw | assumption]].
  f_equal. f_equal.
  rewrite <- (statistic_of_window set_order _ _ w k Hw Hm Hcol).
  unfold statistic_of. rewrite Hpd, Hcd. reflexivity.
Qed.

Lemma result_nodes_canonical (set_order : string -> nat) (graph : Graph)
    (tn tm ts : string) (normal abnormal : Raw)
    (l : list PotentialRootCause) :
  let common := intersection set_order (columns (reduce_df normal tm ts))
                  (columns (reduce_df abnormal tm ts)) in
  outcome (functional_analyze_root_causes reduce_df set_order graph tn tm ts
             normal abnormal) = inr l ->
  (List.length common <= 10)%nat ->
  NoDup (map node l) /\
  (forall c, In c (map node l) <->
             In petsite_column common /\ In c common /\ c <> petsite_column).
Proof.
  intros common H Hlen. pose proof H as H0.
  apply analyze_inv in H as [w [top [Hw [Htop Hrank]]]].
  destruct (aligned_window_ok _ _ _ _ Hw) as [Cw _]. fold common in Cw.
  apply rank_by_ks_inv in Hrank as [[Hm ->] | [Hm [pd [sc [Hpd [Hloop El]]]]]].
  - apply mem_false in Hm. rewrite Cw in Hm.
    split; [constructor |]. intros c. simpl. tauto.
  - apply mem_In in Hm.
    destruct (result_nodes_perm reduce_df set_order _ _ _ _ _ _ _ _ _
                H0 Hw Htop Hm) as [Hnd Hperm].
    assert (Hall : Permutation top (columns w)).
    { eapply top_columns_all; [eassumption |]. now rewrite Cw. }
    split.
    + eapply Permutation_NoDup; [symmetry; eassumption |].
      now apply NoDup_filter.
    + intros c. rewrite <- Cw. split.
      * intros Hc. apply (Permutation_in _ Hperm) in Hc.
        apply filter_In in Hc as [Hc Hne].
        apply negb_true_iff, String.eqb_neq in Hne.
        split; [assumption |]. split; [| assumption].
        eapply Permutation_in; eassumption.
      * intros [_ [Hc Hne]].
        eapply Permutation_in; [symmetry; eassumption |].
        apply filter_In. split.
        -- eapply Permutation_in; [symmetry; eassumption | assumption].
        -- apply negb_true_iff. now apply String.eqb_neq.
Qed.

(** X17: every returned record is determined by its node and the two
    reduced tables: its metric is the target metric and its score is the
    inverted statistic of the last 5 scaled entries of the combined
    'PetSite' column against those of the node's combined column. *)
Theorem records_have_closed_form (set_order : string -> nat) (graph : Graph)
    (tn tm ts : string) (normal abnormal : Raw)
    (l : list PotentialRootCause) :
  outcome (functional_analyze_root_causes reduce_df set_order graph tn tm ts
             normal abnormal) = inr l ->
  l = map (record_of (reduce_df normal tm ts) (reduce_df abnormal tm ts) tm)
          (map node l).
Proof.
  intros H. rewrite map_map.
  rewrite <- (map_id l) at 1. apply map_ext_in.
  intros r Hr.
  destruct (record_closed_form set_order _ _ _ _ _ _ _ _ H Hr) as [E _].
  exact E.
Qed.

(** X18: with at most 10 common columns the records returned do not
    depend on the order in which Python enumerates the sets of column
    labels: two runs return the same records, up to their order. *)
Theorem records_do_not_depend_on_set_order (order1 order2 : string -> nat)
    (graph : Graph) (tn tm ts : string) (normal abnormal : Raw)
    (l1 l2 : list PotentialRootCause) :
  outcome (functional_analyze_root_causes reduce_df order1 graph tn tm ts
             normal abnormal) = inr l1 ->
  outcome (functional_analyze_root_causes reduce_df order2 graph tn tm ts
             normal abnormal) = inr l2 ->
  (List.length (intersection order1 (columns (reduce_df normal tm ts))
                  (columns (reduce_df abnormal tm ts))) <= 10)%nat ->
  Permutation l1 l2.
Proof.
  intros H1 H2 Hlen.
  set (n := reduce_df normal tm ts) in *.
  set (a := reduce_df abnormal tm ts) in *.
  assert (Hsame : forall c, In c (intersection order1 (columns n) (columns a))
                        <-> In c (intersection order2 (columns n) (columns a))).
  { intros c. rewrite !intersection_In. tauto. }
  assert (Hperm : Permutation (intersection order1 (columns n) (columns a))
                    (intersection order2 (columns n) (columns a))).
  { apply NoDup_Permutation; auto using intersection_NoDup. }
  assert (Hlen2 : (List.length (intersection order2 (columns n) (columns a))
                   <= 10)%nat).
  { rewrite <- (Permutation_length Hperm). assumption. }
  destruct (result_nodes_canonical order1 _ _ _ _ _ _ _ H1 Hlen) as [N1 M1].
  destruct (result_nodes_canonical order2 _ _ _ _ _ _ _ H2 Hlen2) as [N2 M2].
  fold n a in M1, M2.
  assert (Hnodes : Permutation (map node l1) (map node l2)).
  { apply NoDup_Permutation; try assumption.
    intros c. rewrite M1, M2, !Hsame. tauto. }
  assert (E1 : l1 = map (record_of n a tm) (map node l1)).
  { rewrite map_map. rewrite <- (map_id l1) at 1. apply map_ext_in.
    intros r Hr.
    destruct (record_closed_form order1 _ _ _ _ _ _ _ _ H1 Hr) as [E _].
    exact E. }
  assert (E2 : l2 = map (record_of n a tm) (map node l2)).
  { rewrite map_map. rewrite <- (map_id l2) at 1. apply map_ext_in.
    intros r Hr.
    destruct (record_closed_form order2 _ _ _ _ _ _ _ _ H2 Hr) as [E _].
    exact E. }
  rewrite E1, E2. now apply Permutation_map.
Qed.
End ClosedForm.
(** ** Instances on the sample tables *)

Lemma result_nodes_are_candidates_witness :
  Permutation (map node sample_causes)
    (filter (fun c => negb (String.eqb c petsite_column))
            ["C"; "PetSite"; "A"; "B"]) /\
  NoDup (map node sample_causes).
Proof.
  apply (result_nodes_are_candidates (Graph := unit) reduce_id order0
           tt "PetSite" "latency" "Average" t_normal t_abnormal
           sample_causes (window_of t_normal t_abnormal)
           ["C"; "PetSite"; "A"; "B"]).
  - vm_compute. reflexivity.
  - vm_compute. reflexivity.
  - vm_compute. reflexivity.
  - simpl. auto.
Defined.

Lemma result_has_at_most_ten_records_witness :
  (List.length sample_causes <= 10)%nat /\
  (List.length sample_causes
   <= List.length (intersection order0 (columns t_normal)
                     (columns t_abnormal)))%nat.
Proof.
  apply (result_has_at_most_ten_records (Graph := unit) reduce_id order0
           tt "PetSite" "latency" "Average" t_normal t_abnormal
           sample_causes).
  vm_compute. reflexivity.
Defined.

Lemma every_common_column_is_ranked_witness :
  exists r, In r sample_causes /\ node r = "B".
Proof.
  apply (every_common_column_is_ranked (Graph := unit) reduce_id order0
           tt "PetSite" "latency" "Average" t_normal t_abnormal
           sample_causes "B").
  - vm_compute. reflexivity.
  - vm_compute. lia.
  - vm_compute. auto.
  - vm_compute. auto 6.
  - discriminate.
Defined.


Lemma scale_column_keeps_order_witness :
  exists y' z',
    nth_error (scale_column [9; 1; 4]) 1 = Some y' /\
    nth_error (scale_column [9; 1; 4]) 2 = Some z' /\
    y' <= z'.
Proof.
  apply (scale_column_keeps_order [9; 1; 4] 1 2 1 4).
  - reflexivity.
  - reflexivity.
  - discriminate.
Defined.

Lemma scores_are_at_least_one_half_witness : 1 # 2 <= 25 # 50.
Proof.
  apply (scores_are_at_least_one_half (Graph := unit) reduce_id order0
           tt "PetSite" "latency" "Average" t_normal t_abnormal
           sample_causes (mkPotentialRootCause "B" "latency" (25 # 50))).
  - vm_compute. reflexivity.
  - simpl. auto.
Defined.

Lemma twin_of_reference_scores_one_witness : 25 # 25 == 1.
Proof.
  apply (twin_of_reference_scores_one (Graph := unit) reduce_id order0
           tt "PetSite" "latency" "Average" t_twin t_twin
           twin_causes (mkPotentialRootCause "A" "latency" (25 # 25))
           (window_of t_twin t_twin) [3 # 9; 9 # 9; 0 # 9; 3 # 9; 9 # 9]).
  - vm_compute. reflexivity.
  - simpl. auto.
  - vm_compute. reflexivity.
  - vm_compute. reflexivity.
  - vm_compute. reflexivity.
Defined.

Lemma result_is_sorted_by_ascending_statistic_witness :
  Sorted (fun a b =>
            statistic_of (window_of t_normal t_abnormal) (node a)
            <= statistic_of (window_of t_normal t_abnormal) (node b))
         sample_causes.
Proof.
  apply (result_is_sorted_by_ascending_statistic (Graph := unit) reduce_id
           order0 tt "PetSite" "latency" "Average" t_normal t_abnormal
           sample_causes (window_of t_normal t_abnormal)).
  - vm_compute. reflexivity.
  - vm_compute. reflexivity.
Defined.

Lemma window_column_is_scaled_combined_tail_witness :
  exists vn va,
    lookup "C" (cols t_normal) = Some vn /\
    lookup "C" (cols t_abnormal) = Some va /\
    lookup "C" (cols (window_of t_normal t_abnormal))
    = Some (lastn 5 (scale_column (vn ++ va))).
Proof.
  apply (window_column_is_scaled_combined_tail order0 t_normal t_abnormal
           (window_of t_normal t_abnormal) "C").
  - vm_compute. reflexivity.
  - vm_compute. auto 6.
Defined.

Lemma window_has_common_columns_and_last_rows_witness :
  columns (window_of t_no_ref_normal t_no_ref_normal)
  = intersection order0 (columns t_no_ref_normal) (columns t_no_ref_normal) /\
  nrows (window_of t_no_ref_normal t_no_ref_normal) = Nat.min 5 (2 + 2) /\
  (0 < nrows (window_of t_no_ref_normal t_no_ref_normal))%nat /\
  forall label v,
    In (label, v) (cols (window_of t_no_ref_normal t_no_ref_normal)) ->
    List.length v = nrows (window_of t_no_ref_normal t_no_ref_normal).
Proof.
  apply (window_has_common_columns_and_last_rows order0 t_no_ref_normal
           t_no_ref_normal (window_of t_no_ref_normal t_no_ref_normal)).
  - wf_sample.
  - wf_sample.
  - vm_compute. reflexivity.
Defined.

Lemma call_fails_exactly_on_empty_tables_witness :
  (forall e, outcome (run "latency" t_no_rows t_no_rows) = inl e ->
             e = ValueError) /\
  (outcome (run "latency" t_no_rows t_no_rows) = inl ValueError
   <-> (nrows t_no_rows + nrows t_no_rows = 0)%nat
       \/ intersection order0 (columns t_no_rows) (columns t_no_rows) = []).
Proof.
  apply (call_fails_exactly_on_empty_tables (Graph := unit) reduce_id order0
           tt "PetSite" "latency" "Average" t_no_rows t_no_rows).
  - wf_sample.
  - wf_sample.
Defined.

Lemma call_with_reference_prints_alignment_only_witness :
  exists l,
    run "latency" t_normal t_abnormal
    = (alignment_diagnostics order0 t_normal t_abnormal, inr l).
Proof.
  apply (call_with_reference_prints_alignment_only (Graph := unit) reduce_id
           order0 tt "PetSite" "latency" "Average" t_normal t_abnormal).
  - wf_sample.
  - wf_sample.
  - vm_compute. lia.
  - vm_compute. auto.
  - vm_compute. auto.
Defined.

Lemma stub_with_nonpositive_top_k_is_empty_witness :
  analyze_root_causes (Graph := unit) reduce_id (fun d _ => d) counter_rand
    (-2) "mean" tt "PetSite" "latency" "Average" t_normal t_abnormal O
  = ([], O).
Proof.
  apply (stub_with_nonpositive_top_k_is_empty (Graph := unit) reduce_id
           (fun d _ => d) counter_rand (-2) "mean" tt "PetSite" "latency"
           "Average" t_normal t_abnormal O).
  lia.
Defined.

Lemma failing_call_prints_alignment_first_witness :
  run "latency" t_only_a t_only_b
  = (alignment_diagnostics order0 t_only_a t_only_b, inl ValueError).
Proof.
  apply (failing_call_prints_alignment_first (Graph := unit) reduce_id order0
           tt "PetSite" "latency" "Average" t_only_a t_only_b).
  right. vm_compute. reflexivity.
Defined.

Lemma change_infinity_has_one_sign_witness : NaN <> NInf.
Proof.
  apply (change_infinity_has_one_sign order0 t_normal t_abnormal
           (window_of t_normal t_abnormal) "latency"
           [("PetSite", Num (1250000 # 3125)); ("A", Num (1250000 # 3125));
            ("B", NaN); ("C", Num (35429400 # 59049))]
           "B" NaN).
  - vm_compute. reflexivity.
  - vm_compute. reflexivity.
  - simpl. auto.
Defined.

Lemma records_have_closed_form_witness :
  sample_causes
  = map (record_of t_normal t_abnormal "latency") (map node sample_causes).
Proof.
  apply (records_have_closed_form (Graph := unit) reduce_id order0
           tt "PetSite" "latency" "Average" t_normal t_abnormal
           sample_causes).
  vm_compute. reflexivity.
Defined.

Lemma records_do_not_depend_on_set_order_witness :
  Permutation sample_causes sample_causes.
Proof.
  apply (records_do_not_depend_on_set_order (Graph := unit) reduce_id
           order0 order_by_length tt "PetSite" "latency" "Average"
           t_normal t_abnormal sample_causes sample_causes).
  - vm_compute. reflexivity.
  - vm_compute. reflexivity.
  - vm_compute. lia.
Defined.
